(** * Centered Kernel Alignment (CKA.ipynb): a shallow embedding

    The notebook defines four functions over numpy arrays:
    [linear_kernel], [rbf], [HSIC] and [CKA].  They are embedded here as
    Rocq functions over a small model of the numpy operations they call.

    Numbers.  The functions are embedded twice.

    In the first embedding a value is a [float64]: an exact real, one of
    the two infinities, or NaN.  Finite arithmetic is exact (no rounding,
    overflow or underflow, no signed zero); the special values follow
    IEEE 754.  This is the arithmetic of the formulas: it tells which
    formula the code evaluates, which exception it raises and where, and
    what the formula is worth over the reals.

    In the second embedding, the module [B64], a value is a primitive
    float of Rocq: a binary64 number of IEEE 754 with rounding to nearest
    even, which is what Python and numpy compute with.  It evaluates the
    code on concrete inputs, and shows where rounding, overflow and
    underflow take the code away from the formula.

    Python's own float division raises [ZeroDivisionError] on a zero
    divisor, numpy's division does not: both are modelled, since the code
    uses both.

    Arrays.  The arrays are two-dimensional arrays of float64, as the
    notebook builds them; [np.diag] returns a one-dimensional one.

    Errors.  A function that can raise returns a [result]. *)

From Stdlib Require Import PrimFloat.
From Stdlib Require Import Reals Lra Lia List ZArith Bool Arith.
Import ListNotations.

Local Open Scope R_scope.

(** ** Exceptions and results *)

Inductive exn : Type :=
| ZeroDivisionError   (* Python float division by zero *)
| ValueError          (* numpy shape mismatch *)
| NameError.          (* a name that is bound nowhere *)

Inductive result (A : Type) : Type :=
| Ok (a : A)
| Raise (e : exn).

Arguments Ok {A} a.
Arguments Raise {A} e.

Definition bind {A B : Type} (m : result A) (k : A -> result B) : result B :=
  match m with
  | Ok a => k a
  | Raise e => Raise e
  end.

Notation "x <- m ;; k" := (bind m (fun x => k))
  (at level 61, m at next level, right associativity).

(** ** Idealised binary64 values *)

Inductive float64 : Type :=
| Fin (r : R)
| PInf
| NInf
| NaN.

Definition Rzerob (r : R) : bool := if Req_dec_T r 0 then true else false.
Definition Rnegb (r : R) : bool := if Rlt_dec r 0 then true else false.
Definition Rleb (a b : R) : bool := if Rle_dec a b then true else false.

(** The infinity with the sign of [r] when [r] is not zero, NaN otherwise
    (inf * 0). *)
Definition inf_signed (positive : bool) (r : R) : float64 :=
  if Rzerob r then NaN
  else if Bool.eqb positive (Rnegb r) then NInf else PInf.

Definition fneg (x : float64) : float64 :=
  match x with
  | Fin r => Fin (- r)
  | PInf => NInf
  | NInf => PInf
  | NaN => NaN
  end.

Definition fadd (x y : float64) : float64 :=
  match x, y with
  | NaN, _ | _, NaN => NaN
  | Fin a, Fin b => Fin (a + b)
  | PInf, NInf | NInf, PInf => NaN
  | PInf, _ | _, PInf => PInf
  | NInf, _ | _, NInf => NInf
  end.

Definition fsub (x y : float64) : float64 := fadd x (fneg y).

Definition fmul (x y : float64) : float64 :=
  match x, y with
  | NaN, _ | _, NaN => NaN
  | Fin a, Fin b => Fin (a * b)
  | PInf, Fin r | Fin r, PInf => inf_signed true r
  | NInf, Fin r | Fin r, NInf => inf_signed false r
  | PInf, PInf | NInf, NInf => PInf
  | PInf, NInf | NInf, PInf => NInf
  end.

(** numpy's [/] on float64 scalars: a zero divisor gives an infinity or NaN
    (and a RuntimeWarning), never an exception. *)
Definition fdiv (x y : float64) : float64 :=
  match x, y with
  | NaN, _ | _, NaN => NaN
  | Fin a, Fin b =>
      if Rzerob b then
        (if Rzerob a then NaN else if Rnegb a then NInf else PInf)
      else Fin (a / b)
  | Fin _, PInf | Fin _, NInf => Fin 0
  | PInf, Fin b => if Rnegb b then NInf else PInf
  | NInf, Fin b => if Rnegb b then PInf else NInf
  | PInf, PInf | PInf, NInf | NInf, PInf | NInf, NInf => NaN
  end.

(** Python's [/] on floats: a zero divisor raises. *)
Definition py_div (x y : float64) : result float64 :=
  match y with
  | Fin b => if Rzerob b then Raise ZeroDivisionError else Ok (fdiv x y)
  | _ => Ok (fdiv x y)
  end.

(** [np.sqrt]: NaN on a negative argument (and a RuntimeWarning). *)
Definition np_sqrt (x : float64) : float64 :=
  match x with
  | Fin r => if Rnegb r then NaN else Fin (sqrt r)
  | PInf => PInf
  | NInf => NaN
  | NaN => NaN
  end.

(** [math.sqrt]: the only import of the notebook is
    [import numpy as np].  The name [math] is bound nowhere, so the
    expression [math.sqrt(x)] raises [NameError] when [math] is looked
    up, whatever [x] is. *)
Definition math_sqrt (x : float64) : result float64 := Raise NameError.

(** A scalar argument, such as the [sigma] of [rbf]: a Python number (a
    float, or an int, which is converted) or a numpy scalar
    ([np.float64]).  The two kinds multiply alike and differ in the
    division by zero. *)
Inductive scalar : Type :=
| PyFloat (x : float64)
| NpFloat (x : float64).

Definition scalar_value (s : scalar) : float64 :=
  match s with
  | PyFloat x => x
  | NpFloat x => x
  end.

(** [s * s] is of the kind of [s]. *)
Definition scalar_square (s : scalar) : scalar :=
  match s with
  | PyFloat x => PyFloat (fmul x x)
  | NpFloat x => NpFloat (fmul x x)
  end.

(** [- s] *)
Definition scalar_neg (s : scalar) : scalar :=
  match s with
  | PyFloat x => PyFloat (fneg x)
  | NpFloat x => NpFloat (fneg x)
  end.

(** [x / s] for a Python float [x]: the division of Python when [s] is a
    Python number; when [s] is a numpy scalar, numpy takes the operation
    over and the division is numpy's. *)
Definition div_scalar (x : float64) (s : scalar) : result float64 :=
  match s with
  | PyFloat y => py_div x y
  | NpFloat y => Ok (fdiv x y)
  end.

Definition fexp (x : float64) : float64 :=
  match x with
  | Fin r => Fin (exp r)
  | PInf => PInf
  | NInf => Fin 0
  | NaN => NaN
  end.

(** [x != 0] *)
Definition fne0 (x : float64) : bool :=
  match x with
  | Fin r => negb (Rzerob r)
  | _ => true
  end.

Definition fis_nan (x : float64) : bool :=
  match x with NaN => true | _ => false end.

(** [<=] on values that are not NaN *)
Definition fleb (x y : float64) : bool :=
  match x, y with
  | NaN, _ | _, NaN => false
  | NInf, _ | _, PInf => true
  | Fin a, Fin b => Rleb a b
  | _, _ => false
  end.

(** Python ints are converted when they meet a float. *)
Definition of_int (z : Z) : float64 := Fin (IZR z).

(** Left-to-right sum of [f 0 .. f (n-1)]. *)
Fixpoint fsum (n : nat) (f : nat -> float64) : float64 :=
  match n with
  | O => Fin 0
  | S k => fadd (fsum k f) (f k)
  end.

(** ** numpy arrays

    A two-dimensional array is its shape and its items; a one-dimensional
    array its length and its items. *)

Record ndarray : Type := mk_ndarray {
  shape0 : nat;
  shape1 : nat;
  item : nat -> nat -> float64
}.

Record ndarray1 : Type := mk_ndarray1 {
  len : nat;
  item1 : nat -> float64
}.

(** [A.T] *)
Definition T (A : ndarray) : ndarray :=
  mk_ndarray (shape1 A) (shape0 A) (fun i j => item A j i).

(** [np.matmul(A, B)] and [np.dot(A, B)] on two-dimensional arrays: the
    inner dimensions must agree. *)
Definition np_matmul (A B : ndarray) : result ndarray :=
  if Nat.eqb (shape1 A) (shape0 B) then
    Ok (mk_ndarray (shape0 A) (shape1 B)
          (fun i j => fsum (shape1 A) (fun k => fmul (item A i k) (item B k j))))
  else Raise ValueError.

Definition np_dot : ndarray -> ndarray -> result ndarray := np_matmul.

Definition np_identity (n : nat) : ndarray :=
  mk_ndarray n n (fun i j => if Nat.eqb i j then Fin 1 else Fin 0).

Definition np_ones (n m : nat) : ndarray :=
  mk_ndarray n m (fun _ _ => Fin 1).

(** scalar [c * A] and in-place [A *= c] *)
Definition scalar_mul (c : float64) (A : ndarray) : ndarray :=
  mk_ndarray (shape0 A) (shape1 A) (fun i j => fmul c (item A i j)).

Definition imul_scalar (A : ndarray) (c : float64) : ndarray :=
  mk_ndarray (shape0 A) (shape1 A) (fun i j => fmul (item A i j) c).

(** Broadcasting of two axes: equal, or one of them 1. *)
Definition broadcast_dim (a b : nat) : option nat :=
  if Nat.eqb a b then Some a
  else if Nat.eqb a 1 then Some b
  else if Nat.eqb b 1 then Some a
  else None.

(** Index into an axis of length [d]: an axis of length 1 is stretched. *)
Definition bidx (d i : nat) : nat := if Nat.eqb d 1 then O else i.

(** An elementwise binary operation with broadcasting. *)
Definition broadcast (op : float64 -> float64 -> float64) (A B : ndarray)
  : result ndarray :=
  match broadcast_dim (shape0 A) (shape0 B),
        broadcast_dim (shape1 A) (shape1 B) with
  | Some n, Some m =>
      Ok (mk_ndarray n m
            (fun i j =>
               op (item A (bidx (shape0 A) i) (bidx (shape1 A) j))
                  (item B (bidx (shape0 B) i) (bidx (shape1 B) j))))
  | _, _ => Raise ValueError
  end.

Definition np_add : ndarray -> ndarray -> result ndarray := broadcast fadd.
Definition np_sub : ndarray -> ndarray -> result ndarray := broadcast fsub.

(** A one-dimensional operand of a binary operation with a two-dimensional
    one is treated as a single row. *)
Definition as_row (v : ndarray1) : ndarray :=
  mk_ndarray 1 (len v) (fun _ j => item1 v j).

(** [np.diag(A)] of a two-dimensional array: its main diagonal. *)
Definition np_diag (A : ndarray) : ndarray1 :=
  mk_ndarray1 (Nat.min (shape0 A) (shape1 A)) (fun i => item A i i).

(** [np.trace(A)] *)
Definition np_trace (A : ndarray) : float64 :=
  fsum (Nat.min (shape0 A) (shape1 A)) (fun i => item A i i).

(** [np.mean(A, 0)]: the mean of every column, the sum of its items
    divided (by numpy) by their number; NaN for an array without rows. *)
Definition np_mean0 (A : ndarray) : ndarray1 :=
  mk_ndarray1 (shape1 A)
    (fun j => fdiv (fsum (shape0 A) (fun i => item A i j))
                   (of_int (Z.of_nat (shape0 A)))).

(** [np.exp(A)] *)
Definition np_exp (A : ndarray) : ndarray :=
  mk_ndarray (shape0 A) (shape1 A) (fun i j => fexp (item A i j)).

(** The items of [A] in row-major order. *)
Definition flat (A : ndarray) : list float64 :=
  flat_map (fun i => map (fun j => item A i j) (seq 0 (shape1 A)))
           (seq 0 (shape0 A)).

(** [A[A != 0]] *)
Definition mask_ne0 (A : ndarray) : list float64 := filter fne0 (flat A).

(** Sorting, for the median. *)
Fixpoint insert_sorted (x : float64) (l : list float64) : list float64 :=
  match l with
  | [] => [x]
  | y :: l' => if fleb x y then x :: l else y :: insert_sorted x l'
  end.

Fixpoint sort (l : list float64) : list float64 :=
  match l with
  | [] => []
  | x :: l' => insert_sorted x (sort l')
  end.

(** [np.median] of a flat array: NaN on an empty array (and a
    RuntimeWarning) and on one that holds a NaN; else the middle of the
    sorted items, the mean of the two middle ones when their number is
    even. *)
Definition np_median (l : list float64) : float64 :=
  match l with
  | [] => NaN
  | _ =>
      if existsb fis_nan l then NaN
      else
        let s := sort l in
        let n := length l in
        if Nat.even n
        then fdiv (fadd (nth (n / 2 - 1) s NaN) (nth (n / 2) s NaN)) (Fin 2)
        else nth (n / 2) s NaN
  end.

(** ** The notebook's functions *)

(** [[
def linear_kernel(X, Y):
    return np.matmul(X, Y.T)
]] *)
Definition linear_kernel (X Y : ndarray) : result ndarray :=
  np_matmul X (T Y).

(** The first two lines of [rbf], the matrix [KX] before the scaling:
[[
    GX = np.dot(X, Y.T)
    KX = np.diag(GX) - GX + (np.diag(GX) - GX).T
]] *)
Definition rbf_dist (X Y : ndarray) : result ndarray :=
  GX <- np_dot X (T Y) ;;
  A <- np_sub (as_row (np_diag GX)) GX ;;
  B <- np_sub (as_row (np_diag GX)) GX ;;
  np_add A (T B).

(** [[
def rbf(X, Y, sigma=None):
    GX = np.dot(X, Y.T)
    KX = np.diag(GX) - GX + (np.diag(GX) - GX).T
    if sigma is None:
        mdist = np.median(KX[KX != 0])
        sigma = math.sqrt(mdist)
    KX *= - 0.5 / (sigma * sigma)
    KX = np.exp(KX)
    return KX
]]
    A supplied [sigma] is a Python number or a numpy scalar, and
    [- 0.5 / (sigma * sigma)] is a division of Python or of numpy
    accordingly; what [math.sqrt] returns would be a Python float. *)
Definition rbf (X Y : ndarray) (sigma : option scalar) : result ndarray :=
  KX <- rbf_dist X Y ;;
  sigma <- match sigma with
           | None =>
               let mdist := np_median (mask_ne0 KX) in
               s <- math_sqrt mdist ;; Ok (PyFloat s)
           | Some s => Ok s
           end ;;
  c <- div_scalar (Fin (- 0.5)) (scalar_square sigma) ;;
  let KX := imul_scalar KX c in
  Ok (np_exp KX).

(** The centering matrix of [HSIC]:
[[
    H = np.identity(n) - (1./n) * np.ones((n, n))
]]
    [n] is a Python int, [1./n] a division of Python. *)
Definition centering (n : nat) : result ndarray :=
  c <- py_div (Fin 1) (of_int (Z.of_nat n)) ;;
  np_sub (np_identity n) (scalar_mul c (np_ones n n)).

(** [[
def HSIC(K, L):
    n = K.shape[0]
    H = np.identity(n) - (1./n) * np.ones((n, n))
    KH = np.matmul(K, H)
    LH = np.matmul(L, H)
    return 1./((n-1)**2) * np.trace(np.matmul(KH, LH))
]]
    In the last line the left operand [1./((n-1)**2)], a division of
    Python, is evaluated before the right one. *)
Definition HSIC (K L : ndarray) : result float64 :=
  let n := shape0 K in
  H <- centering n ;;
  KH <- np_matmul K H ;;
  LH <- np_matmul L H ;;
  c <- py_div (Fin 1) (of_int ((Z.of_nat n - 1) ^ 2)) ;;
  M <- np_matmul KH LH ;;
  Ok (fmul c (np_trace M)).

(** A kernel, as [CKA] calls it: a function of two arrays. *)
Definition kernel_fn : Type := ndarray -> ndarray -> result ndarray.

(** [[
def CKA(X, Y, kernel=None):
    kernel = linear_kernel if kernel is None else kernel
    K = kernel(X, X)
    L = kernel(Y, Y)
    hsic = HSIC(K, L)
    varK = np.sqrt(HSIC(K, K))
    varL = np.sqrt(HSIC(L, L))
    return hsic / (varK * varL)
]]
    [hsic], [varK] and [varL] are numpy scalars, the last division is
    numpy's. *)
Definition CKA (X Y : ndarray) (kernel : option kernel_fn) : result float64 :=
  let kernel := match kernel with None => linear_kernel | Some k => k end in
  K <- kernel X X ;;
  L <- kernel Y Y ;;
  hsic <- HSIC K L ;;
  hKK <- HSIC K K ;;
  let varK := np_sqrt hKK in
  hLL <- HSIC L L ;;
  let varL := np_sqrt hLL in
  Ok (fdiv hsic (fmul varK varL)).

(** The RBF kernel as [CKA] calls it: two arguments, [sigma] left at its
    default. *)
Definition rbf_default : kernel_fn := fun X Y => rbf X Y None.

(** The RBF kernel with a bandwidth the caller fixes, as a kernel of two
    arguments for [CKA]: [lambda X, Y: rbf(X, Y, sigma)]. *)
Definition rbf_with (sigma : scalar) : kernel_fn :=
  fun X Y => rbf X Y (Some sigma).

(** The notebook centers the columns of its two inputs before it calls
    [CKA]:
[[
X = X - np.mean(X, 0)
Y = Y - np.mean(Y, 0)
]] *)
Definition center_columns (X : ndarray) : result ndarray :=
  np_sub X (as_row (np_mean0 X)).

(** [kernel = linear_kernel if kernel is None else kernel] *)
Definition kernel_or_default (kernel : option kernel_fn) : kernel_fn :=
  match kernel with None => linear_kernel | Some k => k end.

(** [var_x] of a representation: [np.sqrt(HSIC(K, K))] for
    [K = kernel(X, X)], as [CKA] computes it. *)
Definition variance (kernel : option kernel_fn) (X : ndarray) : result float64 :=
  K <- kernel_or_default kernel X X ;;
  h <- HSIC K K ;;
  Ok (np_sqrt h).

(** A representation is non-degenerate under a kernel when its variance
    is a nonzero number. *)
Definition nondegenerate (kernel : option kernel_fn) (X : ndarray) : Prop :=
  exists v, variance kernel X = Ok (Fin v) /\ v <> 0.


(** The kernels that return a Gram matrix: the linear kernel, and the RBF
    kernel with a supplied bandwidth that is a nonzero number. *)
Definition gram_kernel (kernel : option kernel_fn) : Prop :=
  kernel = None \/ kernel = Some linear_kernel \/
  exists (s : scalar) (sigma : R),
    scalar_value s = Fin sigma /\ sigma <> 0 /\ kernel = Some (rbf_with s).

(** Intermediate values of [rbf], for [X] and [Y] of one shape:
    [G[a,b]] for [G = np.dot(X, Y.T)], and [KX[i,j]] before the scaling,
    [(G[j,j] - G[i,j]) + (G[i,i] - G[j,i])]. *)
Definition gram_item (X Y : ndarray) (a b : nat) : float64 :=
  fsum (shape1 X) (fun k => fmul (item X a k) (item Y b k)).

Definition dist_item (X Y : ndarray) (i j : nat) : float64 :=
  fadd (fsub (gram_item X Y j j) (gram_item X Y i j))
       (fsub (gram_item X Y i i) (gram_item X Y j i)).

(** * Real matrices

    The mathematics the specification speaks of: matrices of reals, their
    product and trace, the centering matrix and squared distances.  An
    array of finite values represents a real matrix. *)

Definition rmat : Type := nat -> nat -> R.

Fixpoint Rsum (n : nat) (f : nat -> R) : R :=
  match n with
  | O => 0
  | S k => Rsum k f + f k
  end.

(** The product of an n x p and a p x m matrix. *)
Definition rmul (p : nat) (A B : rmat) (i j : nat) : R :=
  Rsum p (fun k => A i k * B k j).

Definition rtrans (A : rmat) (i j : nat) : R := A j i.

Definition rtrace (n : nat) (A : rmat) : R := Rsum n (fun i => A i i).

(** [H = I_n - (1/n) ones(n,n)] *)
Definition Hc (n : nat) (i j : nat) : R :=
  (if Nat.eqb i j then 1 else 0) - 1 / INR n * 1.

(** [HSIC(K,L) = trace(K H L H) / (n-1)^2] *)
Definition hsic_spec (n : nat) (K L : rmat) : R :=
  rtrace n (rmul n (rmul n (rmul n K (Hc n)) L) (Hc n)) / (INR n - 1) ^ 2.

(** [G = X X^T] *)
Definition gramR (p : nat) (X : rmat) (i j : nat) : R :=
  rmul p X (rtrans X) i j.

(** [D[i,j] = G[i,i] - 2 G[i,j] + G[j,j]] *)
Definition sqdist (p : nat) (X : rmat) (i j : nat) : R :=
  gramR p X i i - 2 * gramR p X i j + gramR p X j j.

(** [K[i,j] = exp(- D[i,j] / (2 sigma^2))] *)
Definition rbf_gram (sigma : R) (D : rmat) (i j : nat) : R :=
  exp (- D i j / (2 * sigma ^ 2)).

(** ** Arrays of finite values *)

(** [A] is an n x m array whose items are the finite values [M]. *)
Definition repr (A : ndarray) (n m : nat) (M : rmat) : Prop :=
  shape0 A = n /\ shape1 A = m /\
  forall i j, (i < n)%nat -> (j < m)%nat -> item A i j = Fin (M i j).

(** The array of a real matrix. *)
Definition of_rmat (n m : nat) (M : rmat) : ndarray :=
  mk_ndarray n m (fun i j => Fin (M i j)).

(** What [HSIC] computes on finite matrices, in the order of the code:
    [1./((n-1)**2) * trace((K H) (L H))]. *)
Definition hsic_code (n : nat) (K L : rmat) : R :=
  1 / (INR n - 1) ^ 2 *
  rtrace n (rmul n (rmul n K (Hc n)) (rmul n L (Hc n))).

(** What [CKA] computes from two finite Gram matrices. *)
Definition cka_value (n : nat) (K L : rmat) : R :=
  hsic_code n K L / (sqrt (hsic_code n K K) * sqrt (hsic_code n L L)).

(** ** Centered and positive semidefinite matrices *)

(** Equality of the n x n blocks. *)
Definition meq (n : nat) (A B : rmat) : Prop :=
  forall i j, (i < n)%nat -> (j < n)%nat -> A i j = B i j.

Definition symmetric (n : nat) (A : rmat) : Prop := meq n A (rtrans A).

(** [H K H] *)
Definition centered (n : nat) (K : rmat) : rmat :=
  rmul n (Hc n) (rmul n K (Hc n)).

(** The Frobenius product: the sum of [A[i,j] * B[i,j]]. *)
Definition frob (n : nat) (A B : rmat) : R :=
  Rsum n (fun i => Rsum n (fun j => A i j * B i j)).

(** The cone generated by the rank-one matrices u u^T. *)
Inductive psd (n : nat) : rmat -> Prop :=
| psd_zero (A : rmat) :
    meq n A (fun _ _ => 0) -> psd n A
| psd_rank1 (A B : rmat) (u : nat -> R) :
    psd n B -> meq n A (fun i j => B i j + u i * u j) -> psd n A.

(** Entrywise limits of positive semidefinite matrices. *)
Definition psd_lim (n : nat) (A : rmat) : Prop :=
  exists AN : nat -> rmat,
    (forall N, psd n (AN N)) /\
    forall i j, (i < n)%nat -> (j < n)%nat ->
                Un_cv (fun N => AN N i j) (A i j).

(** ** Example inputs *)

Definition one_by_one (r : R) : ndarray := mk_ndarray 1 1 (fun _ _ => Fin r).

(** A 2 x 1, a 3 x 1 and a 1 x 2 matrix. *)
Definition col2 : ndarray :=
  mk_ndarray 2 1 (fun i _ => Fin (INR i + 1)).
Definition col3 : ndarray :=
  mk_ndarray 3 1 (fun i _ => Fin (INR i + 1)).
Definition row2 : ndarray :=
  mk_ndarray 1 2 (fun _ j => Fin (INR j + 1)).

(** The constant 2 x 1 matrix. *)
Definition const2 : ndarray := mk_ndarray 2 1 (fun _ _ => Fin 1).

(** The 2 x 2 matrix of a, b, c, d. *)
Definition m22 (a b c d : R) : rmat :=
  fun i j =>
    match i, j with
    | O, O => a
    | O, _ => b
    | _, O => c
    | _, _ => d
    end.

(** The points 0 and 1 on the line, as a 2 x 1 matrix, in both orders. *)
Definition pts01 : rmat := fun i _ => INR i.
Definition pts10 : rmat := fun i _ => 1 - INR i.

(** Three samples of one feature: (0, 1, 2) and (0, 0, 1). *)
Definition line012 : rmat := fun i _ => INR i.
Definition step001 : rmat :=
  fun i _ => match i with 2%nat => 1 | _ => 0 end.

(** * The functions in binary64

    The functions of the notebook once more, line by line as above, with
    the numbers Python and numpy compute with: Rocq's primitive floats
    are the binary64 numbers of IEEE 754, every operation is rounded to
    nearest, ties to even.

    numpy does not fix the order in which [np.matmul] and [np.trace] add
    their terms; they are added from left to right here.  The inputs on
    which the module is evaluated below have exact products and sums of
    at most two nonzero terms, so that the order does not matter.

    The primitive floats have no exponential: [rbf] is embedded up to its
    last assignment [KX = np.exp(KX)], as [rbf_exponents]. *)

Module B64.

Local Open Scope float_scope.

Record ndarray : Type := mk_ndarray {
  shape0 : nat;
  shape1 : nat;
  item : nat -> nat -> float
}.

Record ndarray1 : Type := mk_ndarray1 {
  len : nat;
  item1 : nat -> float
}.

(** Python's [/] on floats: a zero divisor, of either sign, raises. *)
Definition py_div (x y : float) : result float :=
  if y =? 0 then Raise ZeroDivisionError else Ok (x / y).

(** The float of a Python int, exact below 2^53. *)
Fixpoint of_pos (p : positive) : float :=
  match p with
  | xH => 1
  | xO q => 2 * of_pos q
  | xI q => 2 * of_pos q + 1
  end.

Definition of_int (z : Z) : float :=
  match z with
  | Z0 => 0
  | Zpos p => of_pos p
  | Zneg p => - of_pos p
  end.

Fixpoint fsum (n : nat) (f : nat -> float) : float :=
  match n with
  | O => 0
  | S k => fsum k f + f k
  end.

Definition T (A : ndarray) : ndarray :=
  mk_ndarray (shape1 A) (shape0 A) (fun i j => item A j i).

Definition np_matmul (A B : ndarray) : result ndarray :=
  if Nat.eqb (shape1 A) (shape0 B) then
    Ok (mk_ndarray (shape0 A) (shape1 B)
          (fun i j => fsum (shape1 A) (fun k => item A i k * item B k j)))
  else Raise ValueError.

Definition np_dot : ndarray -> ndarray -> result ndarray := np_matmul.

Definition np_identity (n : nat) : ndarray :=
  mk_ndarray n n (fun i j => if Nat.eqb i j then 1 else 0).

Definition np_ones (n m : nat) : ndarray :=
  mk_ndarray n m (fun _ _ => 1).

Definition scalar_mul (c : float) (A : ndarray) : ndarray :=
  mk_ndarray (shape0 A) (shape1 A) (fun i j => c * item A i j).

Definition imul_scalar (A : ndarray) (c : float) : ndarray :=
  mk_ndarray (shape0 A) (shape1 A) (fun i j => item A i j * c).

Definition broadcast (op : float -> float -> float) (A B : ndarray)
  : result ndarray :=
  match broadcast_dim (shape0 A) (shape0 B),
        broadcast_dim (shape1 A) (shape1 B) with
  | Some n, Some m =>
      Ok (mk_ndarray n m
            (fun i j =>
               op (item A (bidx (shape0 A) i) (bidx (shape1 A) j))
                  (item B (bidx (shape0 B) i) (bidx (shape1 B) j))))
  | _, _ => Raise ValueError
  end.

Definition np_add : ndarray -> ndarray -> result ndarray :=
  broadcast PrimFloat.add.
Definition np_sub : ndarray -> ndarray -> result ndarray :=
  broadcast PrimFloat.sub.

Definition as_row (v : ndarray1) : ndarray :=
  mk_ndarray 1 (len v) (fun _ j => item1 v j).

Definition np_diag (A : ndarray) : ndarray1 :=
  mk_ndarray1 (Nat.min (shape0 A) (shape1 A)) (fun i => item A i i).

Definition np_trace (A : ndarray) : float :=
  fsum (Nat.min (shape0 A) (shape1 A)) (fun i => item A i i).

(** [[
def linear_kernel(X, Y):
    return np.matmul(X, Y.T)
]] *)
Definition linear_kernel (X Y : ndarray) : result ndarray :=
  np_matmul X (T Y).

(** [[
    GX = np.dot(X, Y.T)
    KX = np.diag(GX) - GX + (np.diag(GX) - GX).T
]] *)
Definition rbf_dist (X Y : ndarray) : result ndarray :=
  GX <- np_dot X (T Y) ;;
  A <- np_sub (as_row (np_diag GX)) GX ;;
  B <- np_sub (as_row (np_diag GX)) GX ;;
  np_add A (T B).

Inductive scalar : Type :=
| PyFloat (x : float)
| NpFloat (x : float).

Definition scalar_square (s : scalar) : scalar :=
  match s with
  | PyFloat x => PyFloat (x * x)
  | NpFloat x => NpFloat (x * x)
  end.

Definition div_scalar (x : float) (s : scalar) : result float :=
  match s with
  | PyFloat y => py_div x y
  | NpFloat y => Ok (x / y)
  end.

(** [rbf] up to [KX *= - 0.5 / (sigma * sigma)]: it raises what [rbf]
    raises, and [rbf] returns the exponential of every item of the array
    it returns.  With no sigma the median, which raises nothing, is
    followed by the [NameError] of [math.sqrt].
[[
    GX = np.dot(X, Y.T)
    KX = np.diag(GX) - GX + (np.diag(GX) - GX).T
    if sigma is None:
        mdist = np.median(KX[KX != 0])
        sigma = math.sqrt(mdist)
    KX *= - 0.5 / (sigma * sigma)
]] *)
Definition rbf_exponents (X Y : ndarray) (sigma : option scalar)
  : result ndarray :=
  KX <- rbf_dist X Y ;;
  sigma <- match sigma with
           | None => Raise NameError
           | Some s => Ok s
           end ;;
  c <- div_scalar (- 0.5) (scalar_square sigma) ;;
  Ok (imul_scalar KX c).

(** [[
    H = np.identity(n) - (1./n) * np.ones((n, n))
]] *)
Definition centering (n : nat) : result ndarray :=
  c <- py_div 1 (of_int (Z.of_nat n)) ;;
  np_sub (np_identity n) (scalar_mul c (np_ones n n)).

(** [[
def HSIC(K, L):
    n = K.shape[0]
    H = np.identity(n) - (1./n) * np.ones((n, n))
    KH = np.matmul(K, H)
    LH = np.matmul(L, H)
    return 1./((n-1)**2) * np.trace(np.matmul(KH, LH))
]] *)
Definition HSIC (K L : ndarray) : result float :=
  let n := shape0 K in
  H <- centering n ;;
  KH <- np_matmul K H ;;
  LH <- np_matmul L H ;;
  c <- py_div 1 (of_int ((Z.of_nat n - 1) ^ 2)) ;;
  M <- np_matmul KH LH ;;
  Ok (c * np_trace M).

Definition kernel_fn : Type := ndarray -> ndarray -> result ndarray.

(** [[
def CKA(X, Y, kernel=None):
    kernel = linear_kernel if kernel is None else kernel
    K = kernel(X, X)
    L = kernel(Y, Y)
    hsic = HSIC(K, L)
    varK = np.sqrt(HSIC(K, K))
    varL = np.sqrt(HSIC(L, L))
    return hsic / (varK * varL)
]] *)
Definition CKA (X Y : ndarray) (kernel : option kernel_fn) : result float :=
  let kernel := match kernel with None => linear_kernel | Some k => k end in
  K <- kernel X X ;;
  L <- kernel Y Y ;;
  hsic <- HSIC K L ;;
  hKK <- HSIC K K ;;
  let varK := PrimFloat.sqrt hKK in
  hLL <- HSIC L L ;;
  let varL := PrimFloat.sqrt hLL in
  Ok (hsic / (varK * varL)).

(** [var_x], as [CKA] computes it under the linear kernel. *)
Definition variance (X : ndarray) : result float :=
  K <- linear_kernel X X ;;
  h <- HSIC K K ;;
  Ok (PrimFloat.sqrt h).

(** [np.array(rows)] *)
Definition of_rows (rows : list (list float)) : ndarray :=
  mk_ndarray (length rows) (length (hd [] rows))
    (fun i j => nth j (nth i rows []) 0).

(** Two rows that differ in the second feature only, far from the
    origin; the points 0 and 1; the bandwidth 2^-600. *)
Definition far_pair : ndarray := of_rows [[1e8; 1]; [1e8; 1.5]].
Definition zero_one : ndarray := of_rows [[0]; [1]].
Definition tiny : float := 0x1p-600.

End B64.

(** The same inputs in the first embedding. *)
Definition far_pair : rmat :=
  fun i j => match j with
             | O => 100000000
             | _ => match i with O => 1 | _ => 3 / 2 end
             end.

(** * Properties *)

(** ** Decisions on reals *)

Lemma Rzerob_true (r : R) : r = 0 -> Rzerob r = true.
Proof. intros H. unfold Rzerob. destruct (Req_dec_T r 0); congruence. Qed.

Lemma Rzerob_false (r : R) : r <> 0 -> Rzerob r = false.
Proof. intros H. unfold Rzerob. destruct (Req_dec_T r 0); congruence. Qed.

Lemma Rnegb_true (r : R) : r < 0 -> Rnegb r = true.
Proof. intros H. unfold Rnegb. destruct (Rlt_dec r 0); [reflexivity | contradiction]. Qed.

Lemma Rnegb_false (r : R) : 0 <= r -> Rnegb r = false.
Proof. intros H. unfold Rnegb. destruct (Rlt_dec r 0); [lra | reflexivity]. Qed.

Lemma Rleb_true (a b : R) : a <= b -> Rleb a b = true.
Proof. intros H. unfold Rleb. destruct (Rle_dec a b); [reflexivity | contradiction]. Qed.

Lemma Rleb_false (a b : R) : b < a -> Rleb a b = false.
Proof. intros H. unfold Rleb. destruct (Rle_dec a b); [lra | reflexivity]. Qed.

(** Decide every test on a real that occurs in the goal, closing the
    impossible branches by linear arithmetic. *)
Ltac decide_reals :=
  repeat match goal with
    | |- context [Rzerob ?r] =>
        first [ rewrite (Rzerob_true r) by lra
              | rewrite (Rzerob_false r) by lra ]
    | |- context [Rnegb ?r] =>
        first [ rewrite (Rnegb_true r) by lra
              | rewrite (Rnegb_false r) by lra ]
    | |- context [Rleb ?a ?b] =>
        first [ rewrite (Rleb_true a b) by lra
              | rewrite (Rleb_false a b) by lra ]
    end.

(** ** Python's division *)

Lemma py_div_zero (x : float64) : py_div x (Fin 0) = Raise ZeroDivisionError.
Proof. unfold py_div. now rewrite Rzerob_true. Qed.

Lemma py_div_fin (a b : R) : b <> 0 -> py_div (Fin a) (Fin b) = Ok (Fin (a / b)).
Proof. intros H. unfold py_div, fdiv. now rewrite Rzerob_false. Qed.

(** ** [HSIC] on matrices of size at most one *)

Lemma centering_0 : centering 0 = Raise ZeroDivisionError.
Proof.
  unfold centering, of_int. change (IZR (Z.of_nat 0)) with 0.
  now rewrite py_div_zero.
Qed.

Lemma centering_shape (n : nat) (H : ndarray) :
  centering n = Ok H -> shape0 H = n /\ shape1 H = n.
Proof.
  unfold centering. destruct (py_div _ _) as [c|e]; [|discriminate]. simpl.
  unfold np_sub, broadcast. simpl. unfold broadcast_dim.
  rewrite Nat.eqb_refl. intros E. injection E as <-. split; reflexivity.
Qed.

Lemma centering_pos (n : nat) :
  (0 < n)%nat -> exists H, centering n = Ok H.
Proof.
  intros Hn. unfold centering, of_int.
  rewrite py_div_fin.
  - simpl. unfold np_sub, broadcast. simpl. unfold broadcast_dim.
    rewrite Nat.eqb_refl. eexists. reflexivity.
  - rewrite <- INR_IZR_INZ. apply not_0_INR. lia.
Qed.

(** ** Shapes *)

Lemma np_matmul_ok (A B : ndarray) :
  shape1 A = shape0 B ->
  np_matmul A B =
    Ok (mk_ndarray (shape0 A) (shape1 B)
          (fun i j => fsum (shape1 A) (fun k => fmul (item A i k) (item B k j)))).
Proof. intros E. unfold np_matmul. now rewrite E, Nat.eqb_refl. Qed.

Lemma np_matmul_mismatch (A B : ndarray) :
  shape1 A <> shape0 B -> np_matmul A B = Raise ValueError.
Proof.
  intros E. unfold np_matmul.
  destruct (Nat.eqb_spec (shape1 A) (shape0 B)); [contradiction | reflexivity].
Qed.

(** ** Errors of [HSIC] and of the linear kernel *)

(** C6.  [HSIC] on two n x n matrices with n <= 1 raises
    [ZeroDivisionError]: at [1./n] when n = 0, at [1./((n-1)**2)] when
    n = 1.  No number is returned. *)
Theorem HSIC_degenerate_size (K L : ndarray) (n : nat) :
  shape0 K = n -> shape1 K = n -> shape0 L = n -> shape1 L = n ->
  (n <= 1)%nat ->
  HSIC K L = Raise ZeroDivisionError.
Proof.
  intros K0 K1 L0 L1 Hn. unfold HSIC. rewrite K0.
  destruct n as [|[|n]]; [ | | lia].
  - now rewrite centering_0.
  - destruct (centering_pos 1) as [H EH]; [lia|].
    destruct (centering_shape 1 H EH) as [H0 H1].
    rewrite EH. cbn [bind].
    rewrite np_matmul_ok by congruence. cbn [bind].
    rewrite np_matmul_ok by congruence. cbn [bind].
    unfold of_int. change (IZR ((Z.of_nat 1 - 1) ^ 2)) with 0.
    now rewrite py_div_zero.
Qed.

Lemma HSIC_degenerate_size_witness :
  HSIC (one_by_one 3) (one_by_one 5) = Raise ZeroDivisionError.
Proof.
  apply (HSIC_degenerate_size (one_by_one 3) (one_by_one 5) 1);
    solve [reflexivity | lia].
Defined.

(** C5, as the code has it.  [linear_kernel] does not compare row counts.
    It raises (ValueError, from [np.matmul]) exactly when the column counts
    differ; with equal column counts it returns the matrix X.Y^T whose
    shape is (rows of X, rows of Y), whatever these are. *)
Theorem linear_kernel_shapes (X Y : ndarray) :
  (shape1 X <> shape1 Y -> linear_kernel X Y = Raise ValueError) /\
  (shape1 X = shape1 Y ->
   exists K, linear_kernel X Y = Ok K /\
             shape0 K = shape0 X /\ shape1 K = shape0 Y /\
             forall i j, item K i j =
               fsum (shape1 X) (fun k => fmul (item X i k) (item Y j k))).
Proof.
  unfold linear_kernel. split; intros E.
  - now apply np_matmul_mismatch.
  - rewrite np_matmul_ok by exact E. eexists. split; [reflexivity|].
    simpl. auto.
Qed.

Lemma linear_kernel_shapes_witness :
  linear_kernel col2 row2 = Raise ValueError /\
  exists K, linear_kernel col2 col3 = Ok K /\
            shape0 K = 2%nat /\ shape1 K = 3%nat.
Proof.
  split.
  - apply (proj1 (linear_kernel_shapes col2 row2)). simpl. lia.
  - destruct (proj2 (linear_kernel_shapes col2 col3) eq_refl)
      as [K [E [S0 [S1 _]]]].
    exists K. auto.
Defined.

(** C5 fails as stated: the row counts 2 and 3 differ and the linear
    kernel returns a 2 x 3 matrix. *)
Lemma linear_kernel_row_mismatch_accepted :
  shape0 col2 <> shape0 col3 /\
  exists K, linear_kernel col2 col3 = Ok K /\
            shape0 K = 2%nat /\ shape1 K = 3%nat /\
            item K 1 2 = Fin 6.
Proof.
  split; [simpl; lia|].
  eexists. split; [reflexivity|]. simpl. repeat split.
  f_equal. lra.
Qed.

(** ** Zero variance *)

Lemma fmul_zero_special (x y : float64) :
  x = Fin 0 \/ y = Fin 0 ->
  fmul x y = Fin 0 \/ fmul x y = NaN.
Proof.
  intros [-> | ->].
  - destruct y as [b| | |]; simpl; unfold inf_signed;
      rewrite ?Rzerob_true by reflexivity; auto.
    left. f_equal. lra.
  - destruct x as [a| | |]; simpl; unfold inf_signed;
      rewrite ?Rzerob_true by reflexivity; auto.
    left. f_equal. lra.
Qed.

Lemma fdiv_by_zero_special (x y : float64) :
  y = Fin 0 \/ y = NaN ->
  fdiv x y = NaN \/ fdiv x y = PInf \/ fdiv x y = NInf.
Proof.
  intros [-> | ->].
  - destruct x as [a| | |]; simpl;
      rewrite ?Rzerob_true by reflexivity;
      rewrite ?Rnegb_false by lra; auto.
    destruct (Rzerob a); auto. destruct (Rnegb a); auto.
  - destruct x; simpl; auto.
Qed.

(** C4, as the code has it.  When the kernel and the three [HSIC] calls
    succeed and [var_x] or [var_y] is zero, [CKA] raises nothing: it
    returns the numpy quotient hsic / (var_x * var_y), which is NaN or an
    infinity. *)
Theorem CKA_zero_variance_not_signaled
  (X Y : ndarray) (kernel : option kernel_fn) (K L : ndarray)
  (hsic hKK hLL : float64) :
  kernel_or_default kernel X X = Ok K ->
  kernel_or_default kernel Y Y = Ok L ->
  HSIC K L = Ok hsic -> HSIC K K = Ok hKK -> HSIC L L = Ok hLL ->
  np_sqrt hKK = Fin 0 \/ np_sqrt hLL = Fin 0 ->
  exists v, CKA X Y kernel = Ok v /\ (v = NaN \/ v = PInf \/ v = NInf).
Proof.
  intros EK EL Eh EK2 EL2 Hz. unfold CKA. fold (kernel_or_default kernel).
  rewrite EK. cbn [bind]. rewrite EL. cbn [bind].
  rewrite Eh, EK2, EL2. cbn [bind].
  eexists. split; [reflexivity|].
  apply fdiv_by_zero_special. apply fmul_zero_special. exact Hz.
Qed.

Lemma const2_kernel :
  linear_kernel const2 const2 = Ok (mk_ndarray 2 2 (fun i j =>
    fsum 1 (fun k => fmul (item const2 i k) (item (T const2) k j)))).
Proof. reflexivity. Qed.

Lemma const2_HSIC (K : ndarray) :
  linear_kernel const2 const2 = Ok K -> HSIC K K = Ok (Fin 0).
Proof.
  rewrite const2_kernel. intros E. injection E as <-.
  unfold HSIC, centering, of_int. cbn [shape0].
  rewrite py_div_fin by (simpl; lra). cbn [bind].
  unfold np_sub, np_matmul, broadcast. cbn -[py_div].
  rewrite py_div_fin by lra. cbn.
  do 2 f_equal. field.
Qed.

Lemma np_sqrt_0 : np_sqrt (Fin 0) = Fin 0.
Proof. unfold np_sqrt. rewrite Rnegb_false by lra. now rewrite sqrt_0. Qed.

Lemma CKA_zero_variance_not_signaled_witness :
  exists v, CKA const2 const2 None = Ok v /\ (v = NaN \/ v = PInf \/ v = NInf).
Proof.
  apply (CKA_zero_variance_not_signaled const2 const2 None
           _ _ (Fin 0) (Fin 0) (Fin 0)
           const2_kernel const2_kernel
           (const2_HSIC _ const2_kernel) (const2_HSIC _ const2_kernel)
           (const2_HSIC _ const2_kernel)).
  left. exact np_sqrt_0.
Defined.

(** C4 fails as stated: on the constant 2 x 1 matrix, with the default
    (linear) kernel, HSIC(K, K) is 0, so var_x is 0, and [CKA] returns
    NaN. *)
Lemma CKA_constant_returns_nan :
  exists K, linear_kernel const2 const2 = Ok K /\
            HSIC K K = Ok (Fin 0) /\
            np_sqrt (Fin 0) = Fin 0 /\
            CKA const2 const2 None = Ok NaN.
Proof.
  eexists. split; [exact const2_kernel|].
  split; [exact (const2_HSIC _ const2_kernel)|].
  split; [exact np_sqrt_0|].
  unfold CKA. rewrite const2_kernel. cbn [bind].
  rewrite (const2_HSIC _ const2_kernel). cbn [bind].
  rewrite np_sqrt_0. simpl. now rewrite !Rzerob_true by lra.
Qed.

(** ** The distance step of [rbf] *)

Lemma broadcast_dim_1_l (n : nat) : broadcast_dim 1 n = Some n.
Proof.
  unfold broadcast_dim. destruct (Nat.eqb_spec 1 n) as [<-|]; reflexivity.
Qed.

Lemma broadcast_dim_1_r (n : nat) : broadcast_dim n 1 = Some n.
Proof.
  unfold broadcast_dim. destruct (Nat.eqb_spec n 1) as [->|]; [reflexivity|].
  reflexivity.
Qed.

Lemma broadcast_dim_refl (n : nat) : broadcast_dim n n = Some n.
Proof. unfold broadcast_dim. now rewrite Nat.eqb_refl. Qed.

Lemma bidx_lt (n i : nat) : (i < n)%nat -> bidx n i = i.
Proof.
  intros H. unfold bidx. destruct (Nat.eqb_spec n 1); [lia | reflexivity].
Qed.

Lemma rbf_dist_same_shape (X Y : ndarray) :
  shape0 X = shape0 Y -> shape1 X = shape1 Y ->
  exists KX, rbf_dist X Y = Ok KX /\
             shape0 KX = shape0 X /\ shape1 KX = shape0 X /\
             forall i j, (i < shape0 X)%nat -> (j < shape0 X)%nat ->
                         item KX i j = dist_item X Y i j.
Proof.
  intros E0 E1. unfold rbf_dist, np_dot.
  rewrite np_matmul_ok by exact E1. cbn [bind].
  unfold np_sub, np_add, broadcast. cbn -[bidx].
  rewrite <- E0, Nat.min_id, broadcast_dim_1_l, !broadcast_dim_refl.
  cbn -[bidx]. rewrite !broadcast_dim_refl.
  eexists. split; [reflexivity|]. cbn -[bidx].
  split; [reflexivity|]. split; [reflexivity|].
  intros i j Hi Hj. rewrite !(bidx_lt _ _ Hi), !(bidx_lt _ _ Hj).
  reflexivity.
Qed.

(** ** No bandwidth supplied *)

Lemma rbf_none_name_error (X Y KX : ndarray) :
  rbf_dist X Y = Ok KX -> rbf X Y None = Raise NameError.
Proof. intros E. unfold rbf. now rewrite E. Qed.

Lemma rbf_default_name_error (X : ndarray) :
  rbf_default X X = Raise NameError.
Proof.
  destruct (rbf_dist_same_shape X X eq_refl eq_refl) as [KX [E _]].
  exact (rbf_none_name_error X X KX E).
Qed.

(** C3, on the code as it is.  Called on X and X with no sigma, [rbf]
    computes the distance matrix and its median and then fails: the name
    [math] of [math.sqrt(mdist)] is bound nowhere in the notebook.  No
    bandwidth is computed and no Gram matrix returned, whatever X is. *)
Theorem rbf_without_sigma (X : ndarray) : rbf X X None = Raise NameError.
Proof.
  destruct (rbf_dist_same_shape X X eq_refl eq_refl) as [KX [E _]].
  exact (rbf_none_name_error X X KX E).
Qed.

(** ** A zero bandwidth *)

Lemma fexp_mul_NInf (x : float64) :
  fexp (fmul x NInf) = NaN \/ fexp (fmul x NInf) = Fin 0 \/
  fexp (fmul x NInf) = PInf.
Proof.
  destruct x as [r| | |]; cbn; auto.
  unfold inf_signed. destruct (Rzerob r); cbn; auto.
  destruct (Rnegb r); cbn; auto.
Qed.

(** C10, as the code has it.  Whenever the distance matrix is computed,
    which it is for X and Y of one shape: with a supplied sigma that is
    the Python number 0, [rbf] raises [ZeroDivisionError] at
    [- 0.5 / (sigma * sigma)]; with a supplied sigma that is the numpy
    scalar 0, the division is numpy's, nothing is raised and a matrix is
    returned, whose items are NaN, 0 or infinite. *)
Theorem rbf_sigma_zero (X Y KX : ndarray) :
  rbf_dist X Y = Ok KX ->
  rbf X Y (Some (PyFloat (Fin 0))) = Raise ZeroDivisionError /\
  exists K, rbf X Y (Some (NpFloat (Fin 0))) = Ok K /\
            shape0 K = shape0 KX /\ shape1 K = shape1 KX /\
            forall i j, item K i j = NaN \/ item K i j = Fin 0 \/
                        item K i j = PInf.
Proof.
  intros E. unfold rbf. rewrite E.
  cbn [bind scalar_square div_scalar fmul]. rewrite Rmult_0_l. split.
  - now rewrite py_div_zero.
  - unfold fdiv. rewrite Rzerob_true by reflexivity.
    rewrite Rzerob_false, Rnegb_true by lra. cbn [bind].
    eexists. split; [reflexivity|]. cbn [np_exp imul_scalar shape0 shape1 item].
    split; [reflexivity|]. split; [reflexivity|].
    intros i j. apply fexp_mul_NInf.
Qed.

Lemma rbf_sigma_zero_witness :
  rbf col2 col2 (Some (PyFloat (Fin 0))) = Raise ZeroDivisionError /\
  exists K, rbf col2 col2 (Some (NpFloat (Fin 0))) = Ok K /\
            shape0 K = 2%nat /\ shape1 K = 2%nat.
Proof.
  destruct (rbf_sigma_zero col2 col2 _ eq_refl) as [E [K [EK [K0 [K1 _]]]]].
  split; [exact E|]. exists K. split; [exact EK|]. split; assumption.
Defined.

(** C10 fails as stated: on the two points 0 and 1, with the numpy scalar
    0 for sigma, [rbf] raises nothing and returns the matrix
    [[NaN, 0], [0, NaN]]. *)
Lemma rbf_numpy_zero_returns :
  exists K,
    rbf (of_rmat 2 1 pts01) (of_rmat 2 1 pts01) (Some (NpFloat (Fin 0)))
      = Ok K /\
    item K 0 0 = NaN /\ item K 0 1 = Fin 0 /\
    item K 1 0 = Fin 0 /\ item K 1 1 = NaN.
Proof.
  eexists. split; [reflexivity|].
  unfold pts01.
  repeat split; cbn; repeat (progress (cbn; unfold inf_signed; decide_reals));
    reflexivity.
Qed.

(** * [HSIC] on matrices of finite values *)

Lemma repr_of_rmat (n m : nat) (M : rmat) : repr (of_rmat n m M) n m M.
Proof. repeat split. Qed.

(** ** Sums *)

Lemma Rsum_ext (n : nat) (f g : nat -> R) :
  (forall k, (k < n)%nat -> f k = g k) -> Rsum n f = Rsum n g.
Proof.
  induction n as [|n IH]; intros E; simpl; [reflexivity|].
  rewrite IH, E by auto with arith. reflexivity.
Qed.

Lemma Rsum_plus (n : nat) (f g : nat -> R) :
  Rsum n (fun k => f k + g k) = Rsum n f + Rsum n g.
Proof. induction n as [|n IH]; simpl; [|rewrite IH]; ring. Qed.

Lemma Rsum_scal_l (n : nat) (c : R) (f : nat -> R) :
  Rsum n (fun k => c * f k) = c * Rsum n f.
Proof. induction n as [|n IH]; simpl; [|rewrite IH]; ring. Qed.

Lemma Rsum_scal_r (n : nat) (c : R) (f : nat -> R) :
  Rsum n (fun k => f k * c) = Rsum n f * c.
Proof. induction n as [|n IH]; simpl; [|rewrite IH]; ring. Qed.

Lemma Rsum_zero (n : nat) : Rsum n (fun _ => 0) = 0.
Proof. induction n as [|n IH]; simpl; [|rewrite IH]; ring. Qed.

Lemma Rsum_swap (n m : nat) (f : nat -> nat -> R) :
  Rsum n (fun i => Rsum m (fun j => f i j)) =
  Rsum m (fun j => Rsum n (fun i => f i j)).
Proof.
  induction n as [|n IH]; simpl.
  - now rewrite Rsum_zero.
  - now rewrite IH, Rsum_plus.
Qed.

Lemma Rsum_nonneg (n : nat) (f : nat -> R) :
  (forall k, (k < n)%nat -> 0 <= f k) -> 0 <= Rsum n f.
Proof.
  induction n as [|n IH]; intros H; simpl; [lra|].
  specialize (IH (fun k Hk => H k (Nat.lt_lt_succ_r _ _ Hk))).
  specialize (H n (Nat.lt_succ_diag_r n)). lra.
Qed.

Lemma fsum_Fin (n : nat) (f : nat -> float64) (g : nat -> R) :
  (forall k, (k < n)%nat -> f k = Fin (g k)) -> fsum n f = Fin (Rsum n g).
Proof.
  induction n as [|n IH]; intros E; simpl; [reflexivity|].
  rewrite IH, E by auto with arith. reflexivity.
Qed.

(** ** Matrix algebra *)

Lemma rmul_assoc (p q : nat) (A B C : rmat) (i j : nat) :
  rmul q (rmul p A B) C i j = rmul p A (rmul q B C) i j.
Proof.
  unfold rmul.
  rewrite (Rsum_ext q _ (fun k => Rsum p (fun l => A i l * B l k * C k j)))
    by (intros; now rewrite Rsum_scal_r).
  rewrite Rsum_swap. apply Rsum_ext. intros l _.
  rewrite <- Rsum_scal_l. apply Rsum_ext. intros; ring.
Qed.

Lemma rtrace_rmul_comm (n : nat) (A B : rmat) :
  rtrace n (rmul n A B) = rtrace n (rmul n B A).
Proof.
  unfold rtrace, rmul. rewrite Rsum_swap. apply Rsum_ext. intros i _.
  apply Rsum_ext. intros; ring.
Qed.

(** ** The operations on arrays of finite values *)

Lemma repr_matmul (A B : ndarray) (n p m : nat) (MA MB : rmat) :
  repr A n p MA -> repr B p m MB ->
  exists C, np_matmul A B = Ok C /\ repr C n m (rmul p MA MB).
Proof.
  intros [A0 [A1 AI]] [B0 [B1 BI]].
  rewrite np_matmul_ok by congruence.
  eexists. split; [reflexivity|]. cbn. repeat split; try assumption.
  intros i j Hi Hj. rewrite A1. apply fsum_Fin. intros k Hk.
  now rewrite AI, BI.
Qed.

Lemma repr_T (A : ndarray) (n m : nat) (M : rmat) :
  repr A n m M -> repr (T A) m n (rtrans M).
Proof.
  intros [A0 [A1 AI]]. repeat split; try assumption.
  intros i j Hi Hj. cbn. now apply AI.
Qed.

Lemma repr_trace (A : ndarray) (n : nat) (M : rmat) :
  repr A n n M -> np_trace A = Fin (rtrace n M).
Proof.
  intros [A0 [A1 AI]]. unfold np_trace. rewrite A0, A1, Nat.min_id.
  apply fsum_Fin. intros k Hk. now apply AI.
Qed.

Lemma INR_pos_neq (n : nat) : (0 < n)%nat -> INR n <> 0.
Proof. intros H. apply not_0_INR. lia. Qed.

Lemma repr_centering (n : nat) :
  (0 < n)%nat -> exists H, centering n = Ok H /\ repr H n n (Hc n).
Proof.
  intros Hn. unfold centering, of_int.
  rewrite <- INR_IZR_INZ, py_div_fin by now apply INR_pos_neq.
  cbn [bind]. unfold np_sub, broadcast. cbn -[bidx].
  rewrite !broadcast_dim_refl.
  eexists. split; [reflexivity|]. repeat split.
  intros i j Hi Hj. cbn -[bidx]. rewrite !bidx_lt by assumption.
  unfold Hc. destruct (Nat.eqb i j); reflexivity.
Qed.

Lemma IZR_pred_sq (n : nat) : IZR ((Z.of_nat n - 1) ^ 2) = (INR n - 1) ^ 2.
Proof.
  rewrite Z.pow_2_r, mult_IZR, minus_IZR, <- INR_IZR_INZ. simpl. ring.
Qed.

Lemma pred_sq_neq (n : nat) : (2 <= n)%nat -> (INR n - 1) ^ 2 <> 0.
Proof.
  intros Hn. apply pow_nonzero.
  assert (2 <= INR n) by (change 2 with (INR 2); now apply le_INR).
  lra.
Qed.

Lemma HSIC_repr (n : nat) (K L : ndarray) (Kr Lr : rmat) :
  (2 <= n)%nat -> repr K n n Kr -> repr L n n Lr ->
  HSIC K L = Ok (Fin (hsic_code n Kr Lr)).
Proof.
  intros Hn RK RL. unfold HSIC.
  assert (K0 : shape0 K = n) by apply RK. rewrite K0.
  destruct (repr_centering n) as [H [EH RH]]; [lia|].
  rewrite EH. cbn [bind].
  destruct (repr_matmul K H n n n Kr (Hc n) RK RH) as [KH [EKH RKH]].
  destruct (repr_matmul L H n n n Lr (Hc n) RL RH) as [LH [ELH RLH]].
  rewrite EKH. cbn [bind]. rewrite ELH. cbn [bind].
  unfold of_int. rewrite IZR_pred_sq, py_div_fin by now apply pred_sq_neq.
  cbn [bind].
  destruct (repr_matmul KH LH n n n _ _ RKH RLH) as [M [EM RM]].
  rewrite EM. cbn [bind]. rewrite (repr_trace M n _ RM). reflexivity.
Qed.

Lemma hsic_code_spec (n : nat) (K L : rmat) :
  hsic_code n K L = hsic_spec n K L.
Proof.
  unfold hsic_code, hsic_spec.
  replace (rtrace n (rmul n (rmul n (rmul n K (Hc n)) L) (Hc n)))
    with (rtrace n (rmul n (rmul n K (Hc n)) (rmul n L (Hc n)))).
  - unfold Rdiv. ring.
  - unfold rtrace. apply Rsum_ext. intros i _.
    symmetry. apply rmul_assoc.
Qed.

(** C2.  On two n x n matrices of finite values, n >= 2, [HSIC] returns
    trace(K H L H) / (n-1)^2 with H = I_n - (1/n) ones(n,n); the one [H],
    built from n, multiplies both K and L. *)
Theorem HSIC_formula (n : nat) (K L : ndarray) (Kr Lr : rmat) :
  (2 <= n)%nat -> repr K n n Kr -> repr L n n Lr ->
  HSIC K L =
    Ok (Fin (rtrace n (rmul n (rmul n (rmul n Kr (Hc n)) Lr) (Hc n))
             / (INR n - 1) ^ 2)).
Proof.
  intros Hn RK RL. rewrite (HSIC_repr n K L Kr Lr Hn RK RL).
  now rewrite hsic_code_spec.
Qed.

Lemma HSIC_formula_witness :
  HSIC (of_rmat 2 2 (m22 1 2 3 4)) (of_rmat 2 2 (m22 1 0 0 1)) =
    Ok (Fin (rtrace 2 (rmul 2 (rmul 2 (rmul 2 (m22 1 2 3 4) (Hc 2))
                                      (m22 1 0 0 1)) (Hc 2))
             / (INR 2 - 1) ^ 2)).
Proof.
  apply (HSIC_formula 2 _ _ (m22 1 2 3 4) (m22 1 0 0 1));
    [lia | apply repr_of_rmat | apply repr_of_rmat].
Defined.

(** * The RBF kernel on finite matrices *)

(** ** Squared distances *)

Lemma gramR_sym (p : nat) (X : rmat) (i j : nat) :
  gramR p X i j = gramR p X j i.
Proof. unfold gramR, rmul, rtrans. apply Rsum_ext. intros; ring. Qed.

Lemma sqdist_sum (p : nat) (X : rmat) (i j : nat) :
  sqdist p X i j = Rsum p (fun k => (X i k - X j k) ^ 2).
Proof.
  unfold sqdist, gramR, rmul, rtrans.
  induction p as [|p IH]; cbn [Rsum]; [ring|]. rewrite <- IH. ring.
Qed.

Lemma sqdist_nonneg (p : nat) (X : rmat) (i j : nat) : 0 <= sqdist p X i j.
Proof.
  rewrite sqdist_sum. apply Rsum_nonneg. intros k _. apply pow2_ge_0.
Qed.

Lemma sqdist_diag (p : nat) (X : rmat) (i : nat) : sqdist p X i i = 0.
Proof. unfold sqdist. ring. Qed.

Lemma sqdist_sym (p : nat) (X : rmat) (i j : nat) :
  sqdist p X i j = sqdist p X j i.
Proof. unfold sqdist. rewrite (gramR_sym p X i j). ring. Qed.

(** ** [rbf] on a matrix of finite values *)

Lemma gram_item_repr (X : ndarray) (n p : nat) (Xr : rmat) (i j : nat) :
  repr X n p Xr -> (i < n)%nat -> (j < n)%nat ->
  gram_item X X i j = Fin (gramR p Xr i j).
Proof.
  intros [X0 [X1 XI]] Hi Hj. unfold gram_item. rewrite X1.
  apply fsum_Fin. intros k Hk. now rewrite !XI.
Qed.

Lemma repr_rbf_dist (X : ndarray) (n p : nat) (Xr : rmat) :
  repr X n p Xr ->
  exists KX, rbf_dist X X = Ok KX /\ repr KX n n (sqdist p Xr).
Proof.
  intros RX. assert (X0 : shape0 X = n) by apply RX.
  destruct (rbf_dist_same_shape X X eq_refl eq_refl) as [KX [E [K0 [K1 KI]]]].
  exists KX. split; [exact E|]. rewrite X0 in *. repeat split; try assumption.
  intros i j Hi Hj. rewrite KI by assumption. unfold dist_item.
  rewrite !(gram_item_repr X n p Xr) by assumption. cbn.
  f_equal. unfold sqdist. rewrite (gramR_sym p Xr j i). ring.
Qed.

Lemma exp_nonpos_le_1 (x : R) : x <= 0 -> exp x <= 1.
Proof.
  intros [Hx | ->].
  - rewrite <- exp_0. left. now apply exp_increasing.
  - rewrite exp_0. lra.
Qed.

Lemma rbf_gram_range (sigma : R) (p : nat) (X : rmat) (i j : nat) :
  sigma <> 0 -> 0 < rbf_gram sigma (sqdist p X) i j <= 1.
Proof.
  intros Hs. unfold rbf_gram. split; [apply exp_pos|].
  apply exp_nonpos_le_1.
  pose proof (sqdist_nonneg p X i j) as HD.
  assert (Hs2 : 0 < 2 * sigma ^ 2).
  { assert (0 < sigma ^ 2) by nra. lra. }
  pose proof (Rle_mult_inv_pos _ _ HD Hs2) as Hq.
  replace (- sqdist p X i j / (2 * sigma ^ 2))
    with (- (sqdist p X i j * / (2 * sigma ^ 2))) by (unfold Rdiv; ring).
  lra.
Qed.

Lemma rbf_gram_diag (sigma : R) (p : nat) (X : rmat) (i : nat) :
  rbf_gram sigma (sqdist p X) i i = 1.
Proof.
  unfold rbf_gram. rewrite sqdist_diag.
  replace (- 0 / (2 * sigma ^ 2)) with 0 by (unfold Rdiv; ring).
  apply exp_0.
Qed.

(** The scaling and the exponential, for a supplied [sigma] that is a
    nonzero number, of Python or of numpy. *)
Lemma repr_rbf_scale (KX : ndarray) (n : nat) (D : rmat)
      (s : scalar) (sigma : R) :
  repr KX n n D -> scalar_value s = Fin sigma -> sigma <> 0 ->
  (c <- div_scalar (Fin (- 0.5)) (scalar_square s) ;;
   Ok (np_exp (imul_scalar KX c))) =
  Ok (np_exp (imul_scalar KX (Fin (- 0.5 / (sigma * sigma))))) /\
  repr (np_exp (imul_scalar KX (Fin (- 0.5 / (sigma * sigma)))))
       n n (rbf_gram sigma D).
Proof.
  intros [K0 [K1 KI]] Es Hs.
  assert (Hss : sigma * sigma <> 0) by now apply Rmult_integral_contrapositive.
  split.
  - destruct s as [x|x]; cbn [scalar_value] in Es; subst x;
      cbn [scalar_square div_scalar fmul].
    + now rewrite py_div_fin.
    + unfold fdiv. now rewrite Rzerob_false.
  - repeat split; try assumption.
    intros i j Hi Hj. cbn. rewrite KI by assumption. cbn.
    unfold rbf_gram. apply f_equal. apply f_equal.
    replace (- 0.5) with (- (1 / 2)) by lra. field. exact Hs.
Qed.

Lemma rbf_supplied_repr (n p : nat) (X : ndarray) (Xr : rmat)
      (s : scalar) (sigma : R) :
  repr X n p Xr -> scalar_value s = Fin sigma -> sigma <> 0 ->
  exists K, rbf X X (Some s) = Ok K /\
            repr K n n (rbf_gram sigma (sqdist p Xr)).
Proof.
  intros RX Es Hs. destruct (repr_rbf_dist X n p Xr RX) as [KX [E RK]].
  destruct (repr_rbf_scale KX n (sqdist p Xr) s sigma RK Es Hs) as [Ec Rc].
  eexists. split; [|exact Rc].
  unfold rbf. rewrite E. cbn [bind]. exact Ec.
Qed.

(** C9, over the reals.  For a matrix X of finite values and a supplied
    sigma that is a finite nonzero number, the formula [rbf(X, X, sigma)]
    evaluates is K[i,j] = exp(-D[i,j] / (2 sigma^2)) with
    D[i,j] = G[i,i] - 2 G[i,j] + G[j,j] and G = X X^T; evaluated in exact
    arithmetic, the call returns this n x n matrix, every entry lies in
    (0, 1] and every diagonal entry is 1. *)
Theorem rbf_supplied_sigma (n p : nat) (X : ndarray) (Xr : rmat)
        (s : scalar) (sigma : R) :
  repr X n p Xr -> scalar_value s = Fin sigma -> sigma <> 0 ->
  exists K,
    rbf X X (Some s) = Ok K /\
    shape0 K = n /\ shape1 K = n /\
    forall i j, (i < n)%nat -> (j < n)%nat ->
      exists k,
        item K i j = Fin k /\
        k = exp (- (gramR p Xr i i - 2 * gramR p Xr i j + gramR p Xr j j)
                 / (2 * sigma ^ 2)) /\
        0 < k <= 1 /\
        (i = j -> k = 1).
Proof.
  intros RX Es Hs.
  destruct (rbf_supplied_repr n p X Xr s sigma RX Es Hs)
    as [K [E [K0 [K1 KI]]]].
  exists K. repeat split; try assumption.
  intros i j Hi Hj. exists (rbf_gram sigma (sqdist p Xr) i j).
  split; [now apply KI|]. split; [reflexivity|].
  split; [now apply rbf_gram_range|].
  intros <-. apply rbf_gram_diag.
Qed.

Lemma rbf_supplied_sigma_witness :
  exists K,
    rbf (of_rmat 2 1 pts01) (of_rmat 2 1 pts01) (Some (PyFloat (Fin 1)))
      = Ok K /\
    shape0 K = 2%nat /\ shape1 K = 2%nat /\
    forall i j, (i < 2)%nat -> (j < 2)%nat ->
      exists k,
        item K i j = Fin k /\
        k = exp (- (gramR 1 pts01 i i - 2 * gramR 1 pts01 i j
                    + gramR 1 pts01 j j) / (2 * 1 ^ 2)) /\
        0 < k <= 1 /\
        (i = j -> k = 1).
Proof.
  apply (rbf_supplied_sigma 2 1 (of_rmat 2 1 pts01) pts01 (PyFloat (Fin 1)) 1);
    [apply repr_of_rmat | reflexivity | lra].
Defined.

(** C9 fails in binary64.  The bandwidth 2^-600 is not zero, its square
    underflows to zero, and [rbf] raises [ZeroDivisionError] on the two
    points 0 and 1 instead of returning a matrix.  On the rows
    (1e8, 1) and (1e8, 1.5), with sigma = 1, the Gram matrix is rounded to
    [[1e16, 1e16 + 2], [1e16 + 2, 1e16 + 2]], the distance computed for
    the two rows is -2 and the argument of [np.exp] is 1: the entry
    returned is e, above 1. *)
Lemma rbf_binary64_failures :
  (B64.tiny =? 0)%float = false /\
  B64.rbf_exponents B64.zero_one B64.zero_one (Some (B64.PyFloat B64.tiny))
    = Raise ZeroDivisionError /\
  exists KX E,
    B64.rbf_dist B64.far_pair B64.far_pair = Ok KX /\
    B64.item KX 0 1 = (-2)%float /\
    B64.rbf_exponents B64.far_pair B64.far_pair (Some (B64.PyFloat 1%float))
      = Ok E /\
    B64.item E 0 1 = 1%float.
Proof.
  split; [vm_compute; reflexivity|].
  split; [vm_compute; reflexivity|].
  do 2 eexists. split; [reflexivity|].
  split; [vm_compute; reflexivity|].
  split; [reflexivity|]. vm_compute. reflexivity.
Qed.

Lemma pts01_sqdist_01 : sqdist 1 pts01 0 1 = 1.
Proof. unfold sqdist, gramR, rmul, rtrans, pts01. simpl. ring. Qed.

(** * CKA *)

Lemma np_sqrt_Fin_inv (h : float64) (v : R) :
  np_sqrt h = Fin v -> v <> 0 -> exists a, h = Fin a /\ 0 < a /\ v = sqrt a.
Proof.
  destruct h as [a| | |]; simpl; try discriminate.
  unfold Rnegb. destruct (Rlt_dec a 0) as [Hneg|Hpos]; [discriminate|].
  intros E Hv. injection E as <-. exists a. split; [reflexivity|].
  split; [|reflexivity].
  destruct (Rle_lt_or_eq_dec 0 a) as [Hlt|<-]; [lra | exact Hlt |].
  now rewrite sqrt_0 in Hv.
Qed.

Lemma nondegenerate_inv (kernel : option kernel_fn) (X : ndarray) :
  nondegenerate kernel X ->
  exists K a, kernel_or_default kernel X X = Ok K /\
              HSIC K K = Ok (Fin a) /\ 0 < a.
Proof.
  intros [v [Ev Hv]]. unfold variance in Ev.
  destruct (kernel_or_default kernel X X) as [K|e]; [|discriminate].
  cbn [bind] in Ev. destruct (HSIC K K) as [h|e] eqn:EH; [|discriminate].
  cbn [bind] in Ev. injection Ev as Ev.
  destruct (np_sqrt_Fin_inv h v Ev Hv) as [a [-> [Ha _]]].
  exists K, a. split; [reflexivity|]. split; [exact EH | exact Ha].
Qed.

Lemma np_sqrt_pos (a : R) : 0 < a -> np_sqrt (Fin a) = Fin (sqrt a).
Proof. intros Ha. unfold np_sqrt. now rewrite Rnegb_false by lra. Qed.

(** The last line of [CKA] on numbers with positive variances. *)
Lemma CKA_quotient (h a b : R) :
  0 < a -> 0 < b ->
  fdiv (Fin h) (fmul (np_sqrt (Fin a)) (np_sqrt (Fin b))) =
  Fin (h / (sqrt a * sqrt b)).
Proof.
  intros Ha Hb. rewrite !np_sqrt_pos by assumption. cbn [fmul fdiv].
  rewrite Rzerob_false; [reflexivity|].
  pose proof (sqrt_lt_R0 a Ha). pose proof (sqrt_lt_R0 b Hb). nra.
Qed.


(** ** The kernels on a matrix of finite values *)

Lemma repr_linear_kernel (n p : nat) (X : ndarray) (Xr : rmat) :
  repr X n p Xr ->
  exists K, linear_kernel X X = Ok K /\ repr K n n (gramR p Xr).
Proof.
  intros RX. unfold linear_kernel.
  apply (repr_matmul X (T X) n p n Xr (rtrans Xr) RX).
  now apply repr_T.
Qed.

Lemma variance_repr (kernel : option kernel_fn) (n : nat)
      (X K : ndarray) (Kr : rmat) :
  (2 <= n)%nat ->
  kernel_or_default kernel X X = Ok K -> repr K n n Kr ->
  variance kernel X = Ok (np_sqrt (Fin (hsic_code n Kr Kr))).
Proof.
  intros Hn EK RK. unfold variance. rewrite EK. cbn [bind].
  now rewrite (HSIC_repr n K K Kr Kr Hn RK RK).
Qed.

Lemma nondegenerate_repr (kernel : option kernel_fn) (n : nat)
      (X K : ndarray) (Kr : rmat) :
  (2 <= n)%nat ->
  kernel_or_default kernel X X = Ok K -> repr K n n Kr ->
  0 < hsic_code n Kr Kr ->
  nondegenerate kernel X.
Proof.
  intros Hn EK RK Hpos. exists (sqrt (hsic_code n Kr Kr)). split.
  - rewrite (variance_repr kernel n X K Kr Hn EK RK).
    now rewrite np_sqrt_pos.
  - pose proof (sqrt_lt_R0 _ Hpos). lra.
Qed.

(** [hsic_code] of a 2 x 2 matrix with itself. *)
Lemma hsic_code_2 (K : rmat) :
  hsic_code 2 K K =
  (K 0%nat 0%nat - K 0%nat 1%nat - K 1%nat 0%nat + K 1%nat 1%nat) ^ 2 / 4.
Proof.
  unfold hsic_code, rtrace, rmul, Hc. simpl. field.
Qed.



Lemma rbf_gram_lt_1 (sigma : R) (p : nat) (X : rmat) (i j : nat) :
  sigma <> 0 -> 0 < sqdist p X i j -> rbf_gram sigma (sqdist p X) i j < 1.
Proof.
  intros Hs HD. unfold rbf_gram. rewrite <- exp_0. apply exp_increasing.
  assert (Hs2 : 0 < 2 * sigma ^ 2).
  { assert (0 < sigma ^ 2) by nra. lra. }
  pose proof (Rinv_0_lt_compat _ Hs2) as Hinv.
  replace (- sqdist p X i j / (2 * sigma ^ 2))
    with (- (sqdist p X i j * / (2 * sigma ^ 2))) by (unfold Rdiv; ring).
  pose proof (Rmult_lt_0_compat _ _ HD Hinv). lra.
Qed.

(** ** The Gram matrix of a valid kernel on a non-degenerate input *)

Lemma nondegenerate_positive (kernel : option kernel_fn) (n : nat)
      (X K : ndarray) (Kr : rmat) :
  (2 <= n)%nat ->
  kernel_or_default kernel X X = Ok K -> repr K n n Kr ->
  nondegenerate kernel X ->
  0 < hsic_code n Kr Kr.
Proof.
  intros Hn EK RK ND.
  destruct (nondegenerate_inv kernel X ND) as [K' [a [EK' [EH Ha]]]].
  rewrite EK in EK'. injection EK' as <-.
  rewrite (HSIC_repr n K K Kr Kr Hn RK RK) in EH. now injection EH as ->.
Qed.


(** ** [CKA] on finite Gram matrices with positive variances *)

Lemma CKA_repr (kernel : option kernel_fn) (n : nat)
      (X Y K L : ndarray) (Kr Lr : rmat) :
  (2 <= n)%nat ->
  kernel_or_default kernel X X = Ok K -> repr K n n Kr ->
  kernel_or_default kernel Y Y = Ok L -> repr L n n Lr ->
  0 < hsic_code n Kr Kr -> 0 < hsic_code n Lr Lr ->
  CKA X Y kernel = Ok (Fin (cka_value n Kr Lr)).
Proof.
  intros Hn EK RK EL RL HK HL.
  unfold CKA. fold (kernel_or_default kernel).
  rewrite EK. cbn [bind]. rewrite EL. cbn [bind].
  rewrite (HSIC_repr n K L Kr Lr Hn RK RL). cbn [bind].
  rewrite (HSIC_repr n K K Kr Kr Hn RK RK). cbn [bind].
  rewrite (HSIC_repr n L L Lr Lr Hn RL RL). cbn [bind].
  now rewrite CKA_quotient.
Qed.






(** * Centered matrices and the Frobenius product

    trace(K H L H) is the Frobenius product of the centered matrices
    H K H and H L H.  From this come the bounds on CKA. *)

Lemma meq_refl (n : nat) (A : rmat) : meq n A A.
Proof. intros i j _ _. reflexivity. Qed.

Lemma meq_sym (n : nat) (A B : rmat) : meq n A B -> meq n B A.
Proof. intros H i j Hi Hj. symmetry. now apply H. Qed.

Lemma meq_trans (n : nat) (A B C : rmat) : meq n A B -> meq n B C -> meq n A C.
Proof. intros H1 H2 i j Hi Hj. rewrite H1 by assumption. now apply H2. Qed.

Lemma rmul_meq (n : nat) (A A' B B' : rmat) :
  meq n A A' -> meq n B B' -> meq n (rmul n A B) (rmul n A' B').
Proof.
  intros HA HB i j Hi Hj. unfold rmul. apply Rsum_ext. intros k Hk.
  now rewrite HA, HB.
Qed.

Lemma rtrace_meq (n : nat) (A B : rmat) :
  meq n A B -> rtrace n A = rtrace n B.
Proof. intros H. unfold rtrace. apply Rsum_ext. intros i Hi. now apply H. Qed.

Lemma rmul_assoc_meq (n : nat) (A B C : rmat) :
  meq n (rmul n (rmul n A B) C) (rmul n A (rmul n B C)).
Proof. intros i j _ _. apply rmul_assoc. Qed.

(** A sum against the identity picks one term. *)
Lemma Rsum_delta_l (n i : nat) (f : nat -> R) :
  (i < n)%nat ->
  Rsum n (fun k => (if Nat.eqb i k then 1 else 0) * f k) = f i.
Proof.
  induction n as [|n IH]; intros Hi; [lia|]. simpl.
  destruct (Nat.eqb_spec i n) as [->|Hne].
  - rewrite (Rsum_ext n _ (fun _ => 0)).
    + rewrite Rsum_zero. ring.
    + intros k Hk. destruct (Nat.eqb_spec n k); [lia | ring].
  - rewrite IH by lia. ring.
Qed.

Lemma Rsum_const (n : nat) (c : R) : Rsum n (fun _ => c) = INR n * c.
Proof.
  induction n as [|n IH]; [simpl; ring|].
  cbn [Rsum]. rewrite IH, S_INR. ring.
Qed.

Lemma Hc_sym (n i j : nat) : Hc n i j = Hc n j i.
Proof. unfold Hc. now rewrite Nat.eqb_sym. Qed.

Lemma Hc_idem (n : nat) : meq n (rmul n (Hc n) (Hc n)) (Hc n).
Proof.
  intros i j Hi Hj. unfold rmul, Hc.
  assert (Hn : INR n <> 0) by (apply INR_pos_neq; lia).
  rewrite (Rsum_ext n _
    (fun k => (if Nat.eqb i k then 1 else 0) *
                ((if Nat.eqb k j then 1 else 0) - 1 / INR n)
              + (- (1 / INR n)) * ((if Nat.eqb j k then 1 else 0) * 1)
              + 1 / INR n * (1 / INR n)))
    by (intros k _; rewrite (Nat.eqb_sym j k); ring).
  rewrite !Rsum_plus, Rsum_scal_l, Rsum_const, !Rsum_delta_l by assumption.
  field. exact Hn.
Qed.

Lemma centered_symmetric (n : nat) (K : rmat) :
  symmetric n K -> symmetric n (centered n K).
Proof.
  intros HK i j Hi Hj. unfold rtrans, centered, rmul.
  rewrite (Rsum_ext n _ (fun a => Rsum n (fun b => Hc n i a * K a b * Hc n b j)))
    by (intros a _; rewrite <- Rsum_scal_l; apply Rsum_ext; intros; ring).
  rewrite Rsum_swap.
  apply Rsum_ext. intros b Hb. rewrite <- Rsum_scal_l.
  apply Rsum_ext. intros a Ha.
  rewrite (HK a b Ha Hb). unfold rtrans.
  rewrite (Hc_sym n i a), (Hc_sym n b j). ring.
Qed.

Lemma trace_centered (n : nat) (K L : rmat) :
  (1 <= n)%nat ->
  rtrace n (rmul n (rmul n K (Hc n)) (rmul n L (Hc n))) =
  rtrace n (rmul n (centered n K) (centered n L)).
Proof.
  intros Hn. unfold centered.
  set (H := Hc n). set (A := rmul n K H). set (B := rmul n L H).
  assert (HH : meq n (rmul n H H) H) by apply Hc_idem.
  assert (AH : meq n (rmul n A H) A).
  { eapply meq_trans; [apply rmul_assoc_meq|].
    apply rmul_meq; [apply meq_refl | exact HH]. }
  assert (BH : meq n (rmul n B H) B).
  { eapply meq_trans; [apply rmul_assoc_meq|].
    apply rmul_meq; [apply meq_refl | exact HH]. }
  symmetry.
  (* tr((H A)(H B)) = tr(H (A (H B))) *)
  rewrite (rtrace_meq n _ _ (rmul_assoc_meq n H A (rmul n H B))).
  (* = tr((A (H B)) H) *)
  rewrite rtrace_rmul_comm.
  (* = tr(A ((H B) H)) = tr(A (H (B H))) = tr(A (H B)) *)
  rewrite (rtrace_meq n _ (rmul n A (rmul n H B))).
  2:{ eapply meq_trans; [apply rmul_assoc_meq|].
      apply rmul_meq; [apply meq_refl|].
      eapply meq_trans; [apply rmul_assoc_meq|].
      apply rmul_meq; [apply meq_refl | exact BH]. }
  (* = tr((A H) B) = tr(A B) *)
  apply rtrace_meq.
  eapply meq_trans; [apply meq_sym, rmul_assoc_meq|].
  apply rmul_meq; [exact AH | apply meq_refl].
Qed.

Lemma trace_frob (n : nat) (A B : rmat) :
  symmetric n B -> rtrace n (rmul n A B) = frob n A B.
Proof.
  intros HB. unfold rtrace, rmul, frob. apply Rsum_ext. intros i Hi.
  apply Rsum_ext. intros j Hj. now rewrite (HB i j Hi Hj).
Qed.

(** [hsic_code] as a Frobenius product of centered matrices. *)
Lemma hsic_code_frob (n : nat) (K L : rmat) :
  (1 <= n)%nat -> symmetric n L ->
  hsic_code n K L =
  1 / (INR n - 1) ^ 2 * frob n (centered n K) (centered n L).
Proof.
  intros Hn HL. unfold hsic_code.
  rewrite (trace_centered n K L Hn).
  rewrite trace_frob by now apply centered_symmetric.
  reflexivity.
Qed.

(** ** The Cauchy-Schwarz inequality for the Frobenius product *)

Lemma frob_nonneg (n : nat) (A : rmat) : 0 <= frob n A A.
Proof.
  unfold frob. apply Rsum_nonneg. intros i _. apply Rsum_nonneg.
  intros j _. nra.
Qed.

Lemma frob_affine (n : nat) (A B : rmat) (t : R) :
  frob n (fun i j => t * A i j + B i j) (fun i j => t * A i j + B i j) =
  frob n A A * t ^ 2 + 2 * frob n A B * t + frob n B B.
Proof.
  unfold frob.
  rewrite (Rsum_ext n _
    (fun i => t ^ 2 * Rsum n (fun j => A i j * A i j)
              + 2 * t * Rsum n (fun j => A i j * B i j)
              + Rsum n (fun j => B i j * B i j))).
  - rewrite !Rsum_plus, !Rsum_scal_l. ring.
  - intros i _. rewrite <- !Rsum_scal_l, <- !Rsum_plus.
    apply Rsum_ext. intros j _. ring.
Qed.

(** A quadratic that is nowhere negative has a discriminant that is not
    positive. *)
Lemma discriminant_nonpos (a b c : R) :
  0 <= a -> (forall t, 0 <= a * t ^ 2 + 2 * b * t + c) -> b ^ 2 <= a * c.
Proof.
  intros Ha H. destruct Ha as [Ha | <-].
  - specialize (H (- b / a)).
    assert (E : a * (- b / a) ^ 2 + 2 * b * (- b / a) + c = c - b ^ 2 / a)
      by (field; lra).
    rewrite E in H.
    assert (Hq : b ^ 2 / a <= c) by lra.
    apply (Rmult_le_compat_l a) in Hq; [|lra].
    replace (a * (b ^ 2 / a)) with (b ^ 2) in Hq by (field; lra). exact Hq.
  - destruct (Req_dec_T b 0) as [-> | Hb]; [lra|].
    specialize (H (- (c + 1) / (2 * b))).
    assert (E : 0 * (- (c + 1) / (2 * b)) ^ 2
                + 2 * b * (- (c + 1) / (2 * b)) + c = -1)
      by (field; exact Hb).
    rewrite E in H. lra.
Qed.

Lemma frob_cauchy_schwarz (n : nat) (A B : rmat) :
  frob n A B ^ 2 <= frob n A A * frob n B B.
Proof.
  apply discriminant_nonpos; [apply frob_nonneg|].
  intros t. rewrite <- frob_affine. apply frob_nonneg.
Qed.

(** ** Positive semidefinite matrices *)

Lemma psd_meq (n : nat) (A B : rmat) : meq n A B -> psd n A -> psd n B.
Proof.
  intros E HA. apply meq_sym in E. destruct HA as [A HA | A A' u HA' HA].
  - apply psd_zero. eapply meq_trans; eassumption.
  - apply (psd_rank1 n B A' u HA'). eapply meq_trans; eassumption.
Qed.

Lemma psd_plus (n : nat) (A B : rmat) :
  psd n A -> psd n B -> psd n (fun i j => A i j + B i j).
Proof.
  intros HA HB. induction HB as [B HB | B B' u HB' IH HB].
  - apply (psd_meq n A); [|exact HA].
    intros i j Hi Hj. rewrite (HB i j Hi Hj). ring.
  - apply (psd_rank1 n _ (fun i j => A i j + B' i j) u IH).
    intros i j Hi Hj. rewrite (HB i j Hi Hj). ring.
Qed.

Lemma psd_outer (n : nat) (u : nat -> R) : psd n (fun i j => u i * u j).
Proof.
  apply (psd_rank1 n _ (fun _ _ => 0) u).
  - apply psd_zero, meq_refl.
  - intros i j _ _. ring.
Qed.

Lemma psd_scale (n : nat) (c : R) (A : rmat) :
  0 <= c -> psd n A -> psd n (fun i j => c * A i j).
Proof.
  intros Hc HA. induction HA as [A HA | A A' u HA' IH HA].
  - apply psd_zero. intros i j Hi Hj. rewrite (HA i j Hi Hj). ring.
  - apply (psd_rank1 n _ (fun i j => c * A' i j) (fun i => sqrt c * u i) IH).
    intros i j Hi Hj. rewrite (HA i j Hi Hj).
    replace (sqrt c * u i * (sqrt c * u j))
      with (sqrt c * sqrt c * (u i * u j)) by ring.
    rewrite sqrt_sqrt by exact Hc. ring.
Qed.

Lemma psd_hadamard_outer (n : nat) (u : nat -> R) (B : rmat) :
  psd n B -> psd n (fun i j => u i * u j * B i j).
Proof.
  intros HB. induction HB as [B HB | B B' v HB' IH HB].
  - apply psd_zero. intros i j Hi Hj. rewrite (HB i j Hi Hj). ring.
  - apply (psd_rank1 n _ (fun i j => u i * u j * B' i j)
                     (fun i => u i * v i) IH).
    intros i j Hi Hj. rewrite (HB i j Hi Hj). ring.
Qed.

(** The entrywise product of two positive semidefinite matrices is
    positive semidefinite. *)
Lemma psd_hadamard (n : nat) (A B : rmat) :
  psd n A -> psd n B -> psd n (fun i j => A i j * B i j).
Proof.
  intros HA HB. induction HA as [A HA | A A' u HA' IH HA].
  - apply psd_zero. intros i j Hi Hj. rewrite (HA i j Hi Hj). ring.
  - apply (psd_meq n (fun i j => A' i j * B i j + u i * u j * B i j)).
    + intros i j Hi Hj. rewrite (HA i j Hi Hj). ring.
    + apply (psd_plus n (fun i j => A' i j * B i j)); [exact IH|].
      now apply psd_hadamard_outer.
Qed.

Lemma frob_meq (n : nat) (A A' B B' : rmat) :
  meq n A A' -> meq n B B' -> frob n A B = frob n A' B'.
Proof.
  intros HA HB. unfold frob. apply Rsum_ext. intros i Hi.
  apply Rsum_ext. intros j Hj. now rewrite HA, HB.
Qed.

Lemma frob_comm (n : nat) (A B : rmat) : frob n A B = frob n B A.
Proof.
  unfold frob. apply Rsum_ext. intros i _. apply Rsum_ext. intros; ring.
Qed.

Lemma frob_plus_l (n : nat) (A A' B : rmat) :
  frob n (fun i j => A i j + A' i j) B = frob n A B + frob n A' B.
Proof.
  unfold frob. rewrite <- Rsum_plus. apply Rsum_ext. intros i _.
  rewrite <- Rsum_plus. apply Rsum_ext. intros; ring.
Qed.

Lemma frob_zero_l (n : nat) (B : rmat) : frob n (fun _ _ => 0) B = 0.
Proof.
  unfold frob. rewrite <- (Rsum_zero n) at 1. apply Rsum_ext. intros i _.
  rewrite <- (Rsum_zero n) at 1. apply Rsum_ext. intros; ring.
Qed.

Lemma frob_outer_outer (n : nat) (u v : nat -> R) :
  frob n (fun i j => u i * u j) (fun i j => v i * v j) =
  Rsum n (fun i => u i * v i) ^ 2.
Proof.
  unfold frob. simpl. rewrite Rmult_1_r, <- Rsum_scal_r.
  apply Rsum_ext. intros i _. rewrite <- Rsum_scal_l.
  apply Rsum_ext. intros; ring.
Qed.

(** The quadratic form of a positive semidefinite matrix. *)
Lemma psd_quadratic_form (n : nat) (A : rmat) (u : nat -> R) :
  psd n A -> 0 <= frob n A (fun i j => u i * u j).
Proof.
  intros HA. induction HA as [A HA | A A' v HA' IH HA].
  - rewrite (frob_meq n A (fun _ _ => 0) _ _ HA (meq_refl n _)).
    rewrite frob_zero_l. lra.
  - rewrite (frob_meq n A _ _ _ HA (meq_refl n _)).
    rewrite (frob_plus_l n A' (fun i j => v i * v j)), frob_outer_outer.
    pose proof (pow2_ge_0 (Rsum n (fun i => v i * u i))). lra.
Qed.

Lemma psd_frob (n : nat) (A B : rmat) :
  psd n A -> psd n B -> 0 <= frob n A B.
Proof.
  intros HA HB. induction HA as [A HA | A A' u HA' IH HA].
  - rewrite (frob_meq n A (fun _ _ => 0) _ _ HA (meq_refl n _)).
    rewrite frob_zero_l. lra.
  - rewrite (frob_meq n A _ _ _ HA (meq_refl n _)).
    rewrite (frob_plus_l n A' (fun i j => u i * u j)).
    rewrite (frob_comm n (fun i j => u i * u j) B).
    pose proof (psd_quadratic_form n B u HB). lra.
Qed.

Lemma gramR_psd (n p : nat) (X : rmat) : psd n (gramR p X).
Proof.
  induction p as [|p IH].
  - apply psd_zero. intros i j _ _. reflexivity.
  - apply (psd_rank1 n _ (gramR p X) (fun i => X i p) IH).
    intros i j _ _. reflexivity.
Qed.

Lemma centered_meq (n : nat) (K K' : rmat) :
  meq n K K' -> meq n (centered n K) (centered n K').
Proof.
  intros E. unfold centered.
  apply rmul_meq; [apply meq_refl|]. apply rmul_meq; [exact E | apply meq_refl].
Qed.

Lemma centered_plus_outer (n : nat) (K : rmat) (u : nat -> R) :
  meq n (centered n (fun i j => K i j + u i * u j))
        (fun i j => centered n K i j
                    + Rsum n (fun a => Hc n i a * u a)
                      * Rsum n (fun a => Hc n j a * u a)).
Proof.
  intros i j _ _. unfold centered, rmul.
  rewrite <- Rsum_scal_r, <- Rsum_plus. apply Rsum_ext. intros a _.
  rewrite (Rsum_ext n (fun k => (K a k + u a * u k) * Hc n k j)
             (fun k => K a k * Hc n k j + u a * (Hc n j k * u k)))
    by (intros k _; rewrite (Hc_sym n k j); ring).
  rewrite Rsum_plus, Rsum_scal_l. ring.
Qed.

Lemma centered_psd (n : nat) (K : rmat) : psd n K -> psd n (centered n K).
Proof.
  intros HK. induction HK as [K HK | K K' u HK' IH HK].
  - apply psd_zero.
    eapply meq_trans; [apply (centered_meq n K _ HK)|].
    intros i j _ _. unfold centered, rmul.
    rewrite <- (Rsum_zero n) at 1. apply Rsum_ext. intros a _.
    rewrite (Rsum_ext n _ (fun _ => 0)) by (intros; ring).
    rewrite Rsum_zero. ring.
  - apply (psd_rank1 n _ (centered n K')
             (fun i => Rsum n (fun a => Hc n i a * u a)) IH).
    eapply meq_trans; [apply (centered_meq n K _ HK)|].
    apply centered_plus_outer.
Qed.

(** ** Limits of positive semidefinite matrices

    The Gram matrix of the RBF kernel is the entrywise limit of positive
    semidefinite matrices: the partial sums of the exponential series. *)

Lemma psd_psd_lim (n : nat) (A : rmat) : psd n A -> psd_lim n A.
Proof.
  intros HA. exists (fun _ => A). split; [intros _; exact HA|].
  intros i j _ _ eps Heps. exists O. intros N _.
  unfold Rdist. rewrite Rminus_diag, Rabs_R0. exact Heps.
Qed.

Lemma Un_cv_const (c : R) : Un_cv (fun _ => c) c.
Proof.
  intros eps Heps. exists O. intros N _.
  unfold Rdist. rewrite Rminus_diag, Rabs_R0. exact Heps.
Qed.

Lemma Un_cv_Rsum (n : nat) (f : nat -> nat -> R) (l : nat -> R) :
  (forall k, (k < n)%nat -> Un_cv (fun N => f N k) (l k)) ->
  Un_cv (fun N => Rsum n (f N)) (Rsum n l).
Proof.
  induction n as [|n IH]; intros H; cbn [Rsum].
  - apply Un_cv_const.
  - apply CV_plus; [apply IH; intros k Hk; apply H; lia | apply H; lia].
Qed.

Lemma Un_cv_nonneg (a : nat -> R) (l : R) :
  (forall N, 0 <= a N) -> Un_cv a l -> 0 <= l.
Proof.
  intros Ha Hcv. destruct (Rle_lt_dec 0 l) as [Hl | Hl]; [exact Hl|].
  destruct (Hcv (- l)) as [N HN]; [lra|].
  specialize (HN N (le_n N)). specialize (Ha N).
  unfold Rdist in HN. rewrite Rabs_right in HN; lra.
Qed.

Lemma centered_cv (n : nat) (KN : nat -> rmat) (K : rmat) (i j : nat) :
  (forall a b, (a < n)%nat -> (b < n)%nat ->
               Un_cv (fun N => KN N a b) (K a b)) ->
  Un_cv (fun N => centered n (KN N) i j) (centered n K i j).
Proof.
  intros H. unfold centered, rmul.
  apply Un_cv_Rsum. intros a Ha.
  apply CV_mult; [apply Un_cv_const|].
  apply Un_cv_Rsum. intros b Hb.
  apply CV_mult; [now apply H | apply Un_cv_const].
Qed.

Lemma frob_cv (n : nat) (AN BN : nat -> rmat) (A B : rmat) :
  (forall i j, (i < n)%nat -> (j < n)%nat ->
               Un_cv (fun N => AN N i j) (A i j)) ->
  (forall i j, (i < n)%nat -> (j < n)%nat ->
               Un_cv (fun N => BN N i j) (B i j)) ->
  Un_cv (fun N => frob n (AN N) (BN N)) (frob n A B).
Proof.
  intros HA HB. unfold frob.
  apply Un_cv_Rsum. intros i Hi. apply Un_cv_Rsum. intros j Hj.
  apply CV_mult; [now apply HA | now apply HB].
Qed.

(** The Frobenius product of two centered limits of positive semidefinite
    matrices is not negative. *)
Lemma frob_centered_nonneg (n : nat) (K L : rmat) :
  psd_lim n K -> psd_lim n L ->
  0 <= frob n (centered n K) (centered n L).
Proof.
  intros [KN [HKN HK]] [LN [HLN HL]].
  apply (Un_cv_nonneg
           (fun N => frob n (centered n (KN N)) (centered n (LN N)))).
  - intros N. apply psd_frob; now apply centered_psd.
  - apply (frob_cv n (fun N => centered n (KN N))
                     (fun N => centered n (LN N))).
    + intros i j _ _. now apply centered_cv.
    + intros i j _ _. now apply centered_cv.
Qed.

(** Entrywise powers and partial sums of the exponential series. *)
Lemma psd_ones (n : nat) : psd n (fun _ _ => 1).
Proof.
  apply (psd_meq n (fun i j => (fun _ => 1) i * (fun _ => 1) j)).
  - intros i j _ _. ring.
  - apply psd_outer.
Qed.

Lemma psd_pow (n : nat) (A : rmat) (m : nat) :
  psd n A -> psd n (fun i j => A i j ^ m).
Proof.
  intros HA. induction m as [|m IH]; cbn [pow].
  - apply psd_ones.
  - now apply (psd_hadamard n A (fun i j => A i j ^ m)).
Qed.

Lemma psd_E1 (n : nat) (A : rmat) (N : nat) :
  psd n A -> psd n (fun i j => E1 (A i j) N).
Proof.
  intros HA. unfold E1. induction N as [|N IH]; cbn [sum_f_R0].
  - apply (psd_scale n (/ INR (fact 0)) (fun i j => A i j ^ 0)).
    + simpl. lra.
    + now apply psd_pow.
  - apply (psd_plus n _ (fun i j => / INR (fact (S N)) * A i j ^ S N) IH).
    apply (psd_scale n (/ INR (fact (S N))) (fun i j => A i j ^ S N)).
    + left. apply Rinv_0_lt_compat. apply lt_0_INR. apply lt_O_fact.
    + now apply psd_pow.
Qed.

Lemma rbf_gram_factor (sigma : R) (p : nat) (X : rmat) (i j : nat) :
  sigma <> 0 ->
  rbf_gram sigma (sqdist p X) i j =
  exp (- gramR p X i i / (2 * sigma ^ 2))
  * exp (- gramR p X j j / (2 * sigma ^ 2))
  * exp (/ sigma ^ 2 * gramR p X i j).
Proof.
  intros Hs. unfold rbf_gram, sqdist. rewrite <- !exp_plus.
  f_equal. field. exact Hs.
Qed.

Lemma rbf_gram_psd_lim (n p : nat) (sigma : R) (X : rmat) :
  sigma <> 0 -> psd_lim n (rbf_gram sigma (sqdist p X)).
Proof.
  intros Hs.
  set (c := fun i => exp (- gramR p X i i / (2 * sigma ^ 2))).
  set (G := fun i j => / sigma ^ 2 * gramR p X i j).
  assert (HG : psd n G).
  { apply (psd_scale n (/ sigma ^ 2) (gramR p X)); [|apply gramR_psd].
    left. apply Rinv_0_lt_compat. nra. }
  exists (fun N i j => c i * c j * E1 (G i j) N). split.
  - intros N. apply psd_hadamard_outer. now apply psd_E1.
  - intros i j _ _. rewrite rbf_gram_factor by exact Hs.
    fold (c i) (c j) (G i j).
    apply CV_mult; [apply Un_cv_const | apply E1_cvg].
Qed.

Lemma rbf_gram_symmetric (n p : nat) (sigma : R) (X : rmat) :
  symmetric n (rbf_gram sigma (sqdist p X)).
Proof.
  intros i j _ _. unfold rtrans, rbf_gram. now rewrite sqdist_sym.
Qed.

Lemma gramR_symmetric (n p : nat) (X : rmat) : symmetric n (gramR p X).
Proof. intros i j _ _. unfold rtrans. apply gramR_sym. Qed.

(** ** The range of CKA *)

Lemma cka_value_range (n : nat) (K L : rmat) :
  (2 <= n)%nat ->
  symmetric n K -> symmetric n L -> psd_lim n K -> psd_lim n L ->
  0 < hsic_code n K K -> 0 < hsic_code n L L ->
  0 <= cka_value n K L <= 1.
Proof.
  intros Hn SK SL PK PL HK HL. unfold cka_value.
  assert (Hn1 : (1 <= n)%nat) by lia.
  pose proof (pred_sq_neq n Hn) as Hne.
  assert (Hc : 0 < 1 / (INR n - 1) ^ 2).
  { apply Rdiv_lt_0_compat; [lra|].
    assert (0 <= (INR n - 1) ^ 2) by apply pow2_ge_0. lra. }
  pose proof (frob_centered_nonneg n K L PK PL) as Hpos.
  pose proof (frob_cauchy_schwarz n (centered n K) (centered n L)) as HCS.
  rewrite (hsic_code_frob n K L Hn1 SL) in *.
  rewrite (hsic_code_frob n K K Hn1 SK) in *.
  rewrite (hsic_code_frob n L L Hn1 SL) in *.
  set (c := 1 / (INR n - 1) ^ 2) in *.
  set (h := frob n (centered n K) (centered n L)) in *.
  set (a := frob n (centered n K) (centered n K)) in *.
  set (b := frob n (centered n L) (centered n L)) in *.
  pose proof (sqrt_lt_R0 _ HK) as Sa. pose proof (sqrt_lt_R0 _ HL) as Sb.
  assert (Sab : 0 < sqrt (c * a) * sqrt (c * b))
    by now apply Rmult_lt_0_compat.
  assert (Hsq : (sqrt (c * a) * sqrt (c * b)) ^ 2 = c * a * (c * b)).
  { replace ((sqrt (c * a) * sqrt (c * b)) ^ 2)
      with (sqrt (c * a) * sqrt (c * a) * (sqrt (c * b) * sqrt (c * b)))
      by ring.
    rewrite !sqrt_sqrt by lra. reflexivity. }
  assert (Hch : 0 <= c * h) by (apply Rmult_le_pos; lra).
  assert (Hle : c * h <= sqrt (c * a) * sqrt (c * b)).
  { assert (Hsq' : (c * h) ^ 2 <= (sqrt (c * a) * sqrt (c * b)) ^ 2).
    { rewrite Hsq. replace ((c * h) ^ 2) with (c ^ 2 * h ^ 2) by ring.
      replace (c * a * (c * b)) with (c ^ 2 * (a * b)) by ring.
      apply Rmult_le_compat_l; [apply pow2_ge_0 | exact HCS]. }
    destruct (Rle_lt_dec (c * h) (sqrt (c * a) * sqrt (c * b)))
      as [Hok | Hgt]; [exact Hok|].
    exfalso. nra. }
  split.
  - apply Rmult_le_pos; [exact Hch|]. left. now apply Rinv_0_lt_compat.
  - apply (Rmult_le_reg_r (sqrt (c * a) * sqrt (c * b))); [exact Sab|].
    unfold Rdiv. rewrite Rmult_assoc, Rinv_l by lra. lra.
Qed.

(** The Gram matrix of the linear kernel and of the RBF kernel with a
    supplied bandwidth, on a matrix of finite values: symmetric, and a
    limit of positive semidefinite matrices. *)
Lemma gram_kernel_repr (kernel : option kernel_fn) (n p : nat)
      (X : ndarray) (Xr : rmat) :
  gram_kernel kernel -> repr X n p Xr ->
  exists K Kr, kernel_or_default kernel X X = Ok K /\
               repr K n n Kr /\ symmetric n Kr /\ psd_lim n Kr.
Proof.
  intros GK RX.
  assert (Hlin : kernel_or_default kernel = linear_kernel ->
            exists K Kr, kernel_or_default kernel X X = Ok K /\
               repr K n n Kr /\ symmetric n Kr /\ psd_lim n Kr).
  { intros Ek. destruct (repr_linear_kernel n p X Xr RX) as [K [EK RK]].
    rewrite <- Ek in EK. exists K, (gramR p Xr).
    split; [exact EK|]. split; [exact RK|].
    split; [apply gramR_symmetric | apply psd_psd_lim, gramR_psd]. }
  destruct GK as [-> | [-> | [s [sigma [Es [Hs ->]]]]]];
    [now apply Hlin | now apply Hlin |].
  destruct (rbf_supplied_repr n p X Xr s sigma RX Es Hs) as [K [EK RK]].
  exists K, (rbf_gram sigma (sqdist p Xr)).
  split; [exact EK|]. split; [exact RK|].
  split; [apply rbf_gram_symmetric | now apply rbf_gram_psd_lim].
Qed.

(** C8, over the reals.  For the linear kernel and for the RBF kernel with
    a supplied nonzero bandwidth, and X, Y of finite values with the same
    number n >= 2 of rows, both non-degenerate under the kernel, the
    quotient [CKA(X, Y, kernel)] evaluates, taken in exact arithmetic, is
    a number in [0, 1].  [CKA] holds no clamping: the bound is the
    Cauchy-Schwarz inequality and the positive semidefiniteness of the two
    Gram matrices. *)
Theorem CKA_range (kernel : option kernel_fn) (n p q : nat)
        (X Y : ndarray) (Xr Yr : rmat) :
  gram_kernel kernel -> (2 <= n)%nat ->
  repr X n p Xr -> repr Y n q Yr ->
  nondegenerate kernel X -> nondegenerate kernel Y ->
  exists c, CKA X Y kernel = Ok (Fin c) /\ 0 <= c <= 1.
Proof.
  intros GK Hn RX RY NX NY.
  destruct (gram_kernel_repr kernel n p X Xr GK RX)
    as [K [Kr [EK [RK [SK PK]]]]].
  destruct (gram_kernel_repr kernel n q Y Yr GK RY)
    as [L [Lr [EL [RL [SL PL]]]]].
  pose proof (nondegenerate_positive kernel n X K Kr Hn EK RK NX) as HK.
  pose proof (nondegenerate_positive kernel n Y L Lr Hn EL RL NY) as HL.
  exists (cka_value n Kr Lr). split.
  - now apply (CKA_repr kernel n X Y K L Kr Lr).
  - now apply cka_value_range.
Qed.

Lemma pts10_sqdist_01 : sqdist 1 pts10 0 1 = 1.
Proof. unfold sqdist, gramR, rmul, rtrans, pts10. simpl. ring. Qed.

(** Two distinct points on the line are non-degenerate under the RBF
    kernel with a supplied bandwidth. *)
Lemma two_points_rbf_nondegenerate (Xr : rmat) (s : scalar) (sigma : R) :
  scalar_value s = Fin sigma -> sigma <> 0 ->
  sqdist 1 Xr 0 1 <> 0 ->
  nondegenerate (Some (rbf_with s)) (of_rmat 2 1 Xr).
Proof.
  intros Es Hs Hd.
  destruct (rbf_supplied_repr 2 1 _ Xr s sigma (repr_of_rmat 2 1 Xr) Es Hs)
    as [K [EK RK]].
  apply (nondegenerate_repr (Some (rbf_with s)) 2 _ K _ (le_n 2) EK RK).
  rewrite hsic_code_2, !rbf_gram_diag.
  pose proof (sqdist_nonneg 1 Xr 0 1) as Hge.
  assert (H01 : 0 < sqdist 1 Xr 0 1) by lra.
  assert (H10 : 0 < sqdist 1 Xr 1 0) by (rewrite sqdist_sym; exact H01).
  pose proof (rbf_gram_lt_1 _ 1 Xr 0 1 Hs H01).
  pose proof (rbf_gram_lt_1 _ 1 Xr 1 0 Hs H10).
  nra.
Qed.

Lemma CKA_range_witness :
  exists c,
    CKA (of_rmat 2 1 pts01) (of_rmat 2 1 pts10)
        (Some (rbf_with (PyFloat (Fin 1)))) = Ok (Fin c) /\
    0 <= c <= 1.
Proof.
  apply (CKA_range (Some (rbf_with (PyFloat (Fin 1)))) 2 1 1 _ _ pts01 pts10).
  - right. right. exists (PyFloat (Fin 1)), 1.
    split; [reflexivity|]. split; [lra | reflexivity].
  - lia.
  - apply repr_of_rmat.
  - apply repr_of_rmat.
  - apply (two_points_rbf_nondegenerate pts01 (PyFloat (Fin 1)) 1);
      [reflexivity | lra | rewrite pts01_sqdist_01; lra].
  - apply (two_points_rbf_nondegenerate pts10 (PyFloat (Fin 1)) 1);
      [reflexivity | lra | rewrite pts10_sqdist_01; lra].
Defined.

(** C8 fails in binary64.  X has the rows (1e8, 1) and (1e8, 1.5), Y the
    rows (0) and (1).  The Gram matrix X X^T is rounded to
    [[1e16, 1e16 + 2], [1e16 + 2, 1e16 + 2]]; under the linear kernel the
    variances computed are 1 and 0.5, none of them zero, and [CKA]
    returns -1. *)
Lemma CKA_binary64_out_of_range :
  B64.variance B64.far_pair = Ok 1%float /\
  B64.variance B64.zero_one = Ok 0.5%float /\
  B64.CKA B64.far_pair B64.zero_one None = Ok (-1)%float.
Proof. repeat split; vm_compute; reflexivity. Qed.

(** On the same two inputs the quotient is 1 over the reals: the two
    rows of X differ in one feature, as those of Y do. *)
Example CKA_far_pair_exact :
  CKA (of_rmat 2 2 far_pair) (of_rmat 2 1 pts01) None = Ok (Fin 1).
Proof.
  destruct (repr_linear_kernel 2 2 _ far_pair (repr_of_rmat 2 2 far_pair))
    as [K [EK RK]].
  destruct (repr_linear_kernel 2 1 _ pts01 (repr_of_rmat 2 1 pts01))
    as [L [EL RL]].
  assert (HKK : hsic_code 2 (gramR 2 far_pair) (gramR 2 far_pair)
                = 1 / 8 * (1 / 8)).
  { rewrite hsic_code_2. unfold gramR, rmul, rtrans, far_pair. simpl. field. }
  assert (HLL : hsic_code 2 (gramR 1 pts01) (gramR 1 pts01)
                = 1 / 2 * (1 / 2)).
  { rewrite hsic_code_2. unfold gramR, rmul, rtrans, pts01. simpl. field. }
  assert (HKL : hsic_code 2 (gramR 2 far_pair) (gramR 1 pts01) = 1 / 16).
  { unfold hsic_code, rtrace, rmul, Hc, gramR, rmul, rtrans, far_pair, pts01.
    simpl. field. }
  rewrite (CKA_repr None 2 _ _ K L _ _ ltac:(lia) EK RK EL RL)
    by (rewrite ?HKK, ?HLL; lra).
  unfold cka_value. rewrite HKK, HLL, HKL, !sqrt_square by lra.
  do 2 f_equal. field.
Qed.

(** [CKA(X, X, kernel)] on the two points 0 and 1, under the RBF kernel
    with the bandwidth 1. *)
Example CKA_self_rbf_pts01 :
  CKA (of_rmat 2 1 pts01) (of_rmat 2 1 pts01)
      (Some (rbf_with (PyFloat (Fin 1)))) = Ok (Fin 1).
Proof.
  assert (ND : nondegenerate (Some (rbf_with (PyFloat (Fin 1))))
                             (of_rmat 2 1 pts01)).
  { apply (two_points_rbf_nondegenerate pts01 (PyFloat (Fin 1)) 1);
      [reflexivity | lra | rewrite pts01_sqdist_01; lra]. }
  destruct (nondegenerate_inv _ _ ND) as [K [a [EK [EH Ha]]]].
  unfold CKA. fold (kernel_or_default (Some (rbf_with (PyFloat (Fin 1))))).
  rewrite EK. cbn [bind]. rewrite EH. cbn [bind].
  rewrite CKA_quotient by assumption.
  do 2 f_equal. rewrite sqrt_sqrt by lra. field. lra.
Qed.

(** ** The median on examples *)

Example np_median_odd : np_median [Fin 3; Fin 1; Fin 2] = Fin 2.
Proof. unfold np_median. repeat (progress (cbn; decide_reals)). reflexivity. Qed.

Example np_median_even :
  np_median [Fin 4; Fin 1; Fin 3; Fin 2] = Fin ((2 + 3) / 2).
Proof. unfold np_median. repeat (progress (cbn; decide_reals)). reflexivity. Qed.

Example np_median_empty : np_median [] = NaN.
Proof. reflexivity. Qed.

(** ** A value strictly inside the range

    Three samples of one feature each, X = (0, 1, 2) and Y = (0, 0, 1):
    the linear CKA is 3/4. *)

Lemma hsic_code_3_gram (x y : rmat) :
  hsic_code 3 (gramR 1 x) (gramR 1 y) =
  ((x 0%nat 0%nat * (2 * y 0%nat 0%nat - y 1%nat 0%nat - y 2%nat 0%nat)
    + x 1%nat 0%nat * (2 * y 1%nat 0%nat - y 0%nat 0%nat - y 2%nat 0%nat)
    + x 2%nat 0%nat * (2 * y 2%nat 0%nat - y 0%nat 0%nat - y 1%nat 0%nat))
   / 3) ^ 2 / 4.
Proof.
  unfold hsic_code, rtrace, rmul, Hc, gramR, rmul, rtrans. simpl. field.
Qed.

Example CKA_linear_three_quarters :
  CKA (of_rmat 3 1 line012) (of_rmat 3 1 step001) None = Ok (Fin (3 / 4)).
Proof.
  destruct (repr_linear_kernel 3 1 _ line012 (repr_of_rmat 3 1 line012))
    as [K [EK RK]].
  destruct (repr_linear_kernel 3 1 _ step001 (repr_of_rmat 3 1 step001))
    as [L [EL RL]].
  assert (HKK : hsic_code 3 (gramR 1 line012) (gramR 1 line012) = 1)
    by (rewrite hsic_code_3_gram; unfold line012; simpl; field).
  assert (HLL : hsic_code 3 (gramR 1 step001) (gramR 1 step001)
                = 1 / 3 * (1 / 3))
    by (rewrite hsic_code_3_gram; unfold step001; simpl; field).
  assert (HKL : hsic_code 3 (gramR 1 line012) (gramR 1 step001) = 1 / 4)
    by (rewrite hsic_code_3_gram; unfold line012, step001; simpl; field).
  rewrite (CKA_repr None 3 _ _ K L _ _ ltac:(lia) EK RK EL RL)
    by (rewrite ?HKK, ?HLL; lra).
  unfold cka_value. rewrite HKK, HLL, HKL, sqrt_1, sqrt_square by lra.
  do 2 f_equal. field.
Qed.

(** * Further properties of the four functions *)

(** ** [HSIC]: when it returns *)

Lemma centering_ok (n : nat) :
  (0 < n)%nat ->
  exists H, centering n = Ok H /\ shape0 H = n /\ shape1 H = n.
Proof.
  intros Hn. destruct (centering_pos n Hn) as [H EH]. exists H.
  split; [exact EH | now apply centering_shape].
Qed.

Lemma py_div_pred_sq (n : nat) :
  (2 <= n)%nat ->
  py_div (Fin 1) (of_int ((Z.of_nat n - 1) ^ 2)) =
  Ok (Fin (1 / (INR n - 1) ^ 2)).
Proof.
  intros Hn. unfold of_int. rewrite IZR_pred_sq.
  apply py_div_fin. now apply pred_sq_neq.
Qed.

(** X1.  [HSIC] returns a number exactly when K and L are both n x n with
    n >= 2, n being the number of rows of K; otherwise it raises. *)
Theorem HSIC_returns_iff (K L : ndarray) :
  (exists h, HSIC K L = Ok h) <->
  (2 <= shape0 K)%nat /\ shape1 K = shape0 K /\
  shape0 L = shape0 K /\ shape1 L = shape0 K.
Proof.
  unfold HSIC. set (n := shape0 K). split.
  - intros [h Eh].
    destruct n as [|n'] eqn:En; [now rewrite centering_0 in Eh|].
    destruct (centering_ok (S n')) as [H [EH [H0 H1]]]; [lia|].
    rewrite EH in Eh. cbn [bind] in Eh.
    unfold np_matmul in Eh at 1. rewrite H0 in Eh.
    destruct (Nat.eqb_spec (shape1 K) (S n')) as [K1|]; [|discriminate].
    cbn [bind] in Eh.
    unfold np_matmul in Eh at 1. rewrite H0 in Eh.
    destruct (Nat.eqb_spec (shape1 L) (S n')) as [L1|]; [|discriminate].
    cbn [bind] in Eh.
    destruct n' as [|n''].
    { unfold of_int in Eh. change (IZR ((Z.of_nat 1 - 1) ^ 2)) with 0 in Eh.
      now rewrite py_div_zero in Eh. }
    rewrite py_div_pred_sq in Eh by lia. cbn [bind] in Eh.
    unfold np_matmul in Eh. cbn [shape0 shape1] in Eh. rewrite H1 in Eh.
    destruct (Nat.eqb_spec (S (S n'')) (shape0 L)) as [L0|]; [|discriminate].
    repeat split; [lia | assumption | now symmetry | assumption].
  - intros [Hn [K1 [L0 L1]]]. fold n in K1, L0, L1.
    destruct (centering_ok n) as [H [EH [H0 H1]]]; [lia|].
    rewrite EH. cbn [bind].
    rewrite np_matmul_ok by congruence. cbn [bind].
    rewrite np_matmul_ok by congruence. cbn [bind].
    rewrite py_div_pred_sq by exact Hn. cbn [bind].
    rewrite np_matmul_ok by (cbn; congruence). cbn [bind].
    eexists. reflexivity.
Qed.

Lemma HSIC_returns_iff_witness :
  exists h, HSIC (of_rmat 2 2 (m22 1 2 3 4)) (of_rmat 2 2 (m22 1 0 0 1)) = Ok h.
Proof.
  apply (proj2 (HSIC_returns_iff (of_rmat 2 2 (m22 1 2 3 4))
                                 (of_rmat 2 2 (m22 1 0 0 1)))).
  simpl. repeat split; lia.
Defined.

(** X2.  With at least two rows in K, any mismatch of the shapes is a
    [ValueError] of [np.matmul]. *)
Theorem HSIC_shape_mismatch (K L : ndarray) :
  (2 <= shape0 K)%nat ->
  shape1 K <> shape0 K \/ shape0 L <> shape0 K \/ shape1 L <> shape0 K ->
  HSIC K L = Raise ValueError.
Proof.
  intros Hn Hbad. unfold HSIC. set (n := shape0 K) in *.
  destruct (centering_ok n) as [H [EH [H0 H1]]]; [lia|].
  rewrite EH. cbn [bind].
  destruct (Nat.eq_dec (shape1 K) n) as [K1|K1];
    [|now rewrite np_matmul_mismatch by congruence].
  rewrite np_matmul_ok by congruence. cbn [bind].
  destruct (Nat.eq_dec (shape1 L) n) as [L1|L1];
    [|now rewrite np_matmul_mismatch by congruence].
  rewrite np_matmul_ok by congruence. cbn [bind].
  rewrite py_div_pred_sq by exact Hn. cbn [bind].
  destruct (Nat.eq_dec (shape0 L) n) as [L0|L0].
  - destruct Hbad as [B | [B | B]]; contradiction.
  - now rewrite np_matmul_mismatch by (cbn; congruence).
Qed.

Lemma HSIC_shape_mismatch_witness :
  HSIC (of_rmat 2 2 (m22 1 2 3 4)) (of_rmat 3 3 (m22 1 0 0 1))
  = Raise ValueError.
Proof.
  apply (HSIC_shape_mismatch (of_rmat 2 2 (m22 1 2 3 4))
                             (of_rmat 3 3 (m22 1 0 0 1))).
  - simpl. lia.
  - right. left. simpl. lia.
Defined.

(** ** The Gram matrices are symmetric *)

Lemma fmul_comm (x y : float64) : fmul x y = fmul y x.
Proof.
  destruct x, y; simpl; try reflexivity. f_equal. ring.
Qed.

Lemma fadd_comm (x y : float64) : fadd x y = fadd y x.
Proof.
  destruct x, y; simpl; try reflexivity. f_equal. ring.
Qed.

Lemma fsum_ext (n : nat) (f g : nat -> float64) :
  (forall k, (k < n)%nat -> f k = g k) -> fsum n f = fsum n g.
Proof.
  induction n as [|n IH]; intros E; simpl; [reflexivity|].
  rewrite IH, E by auto with arith. reflexivity.
Qed.

(** X7.  [linear_kernel(X, X)] never fails and returns a symmetric n x n
    matrix, whatever the items of X are. *)
Theorem linear_kernel_self_symmetric (X : ndarray) :
  exists K, linear_kernel X X = Ok K /\
            shape0 K = shape0 X /\ shape1 K = shape0 X /\
            forall i j, item K i j = item K j i.
Proof.
  unfold linear_kernel. rewrite np_matmul_ok by reflexivity.
  eexists. split; [reflexivity|]. cbn. repeat split.
  intros i j. apply fsum_ext. intros k _. apply fmul_comm.
Qed.

Lemma dist_item_comm (X : ndarray) (i j : nat) :
  dist_item X X i j = dist_item X X j i.
Proof. unfold dist_item. apply fadd_comm. Qed.

(** X9.  Whenever [rbf(X, X, sigma)] returns, with a supplied sigma or not,
    the result is a symmetric n x n matrix. *)
Theorem rbf_self_symmetric (X K : ndarray) (sigma : option scalar) :
  rbf X X sigma = Ok K ->
  shape0 K = shape0 X /\ shape1 K = shape0 X /\
  forall i j, (i < shape0 X)%nat -> (j < shape0 X)%nat ->
              item K i j = item K j i.
Proof.
  unfold rbf.
  destruct (rbf_dist_same_shape X X eq_refl eq_refl)
    as [KX [E [K0 [K1 KI]]]].
  rewrite E. cbn [bind].
  destruct sigma as [s|]; [|discriminate].
  cbn [bind]. destruct (div_scalar _ _) as [c|e]; [|discriminate].
  cbn [bind]. intros EK. injection EK as <-. cbn.
  split; [exact K0|]. split; [exact K1|].
  intros i j Hi Hj. rewrite (KI i j Hi Hj), (KI j i Hj Hi).
  now rewrite dist_item_comm.
Qed.

Lemma rbf_self_symmetric_witness :
  exists K,
    rbf (of_rmat 2 1 pts01) (of_rmat 2 1 pts01) (Some (PyFloat (Fin 1)))
      = Ok K /\
    shape0 K = 2%nat /\ shape1 K = 2%nat /\
    forall i j, (i < 2)%nat -> (j < 2)%nat -> item K i j = item K j i.
Proof.
  destruct (rbf_supplied_repr 2 1 _ pts01 (PyFloat (Fin 1)) 1
              (repr_of_rmat 2 1 pts01) eq_refl)
    as [K [EK _]]; [lra|].
  exists K. split; [exact EK|].
  exact (rbf_self_symmetric (of_rmat 2 1 pts01) K (Some (PyFloat (Fin 1))) EK).
Defined.

(** ** [CKA]: errors *)

Lemma linear_kernel_self (X : ndarray) :
  exists K, linear_kernel X X = Ok K /\
            shape0 K = shape0 X /\ shape1 K = shape0 X.
Proof.
  unfold linear_kernel. rewrite np_matmul_ok by reflexivity.
  eexists. split; [reflexivity|]. split; reflexivity.
Qed.

Lemma HSIC_ok (n : nat) (K L : ndarray) :
  (2 <= n)%nat ->
  shape0 K = n -> shape1 K = n -> shape0 L = n -> shape1 L = n ->
  exists h, HSIC K L = Ok h.
Proof.
  intros Hn K0 K1 L0 L1. unfold HSIC. rewrite K0.
  destruct (centering_ok n) as [H [EH [H0 H1]]]; [lia|].
  rewrite EH. cbn [bind].
  rewrite np_matmul_ok by congruence. cbn [bind].
  rewrite np_matmul_ok by congruence. cbn [bind].
  rewrite py_div_pred_sq by exact Hn. cbn [bind].
  rewrite np_matmul_ok by (cbn; congruence). cbn [bind].
  eexists. reflexivity.
Qed.

Lemma HSIC_small (n : nat) (K L : ndarray) :
  (n <= 1)%nat ->
  shape0 K = n -> shape1 K = n -> shape1 L = n ->
  HSIC K L = Raise ZeroDivisionError.
Proof.
  intros Hn K0 K1 L1. unfold HSIC. rewrite K0.
  destruct n as [|[|n]]; [now rewrite centering_0 | | lia].
  destruct (centering_ok 1) as [H [EH [H0 H1]]]; [lia|].
  rewrite EH. cbn [bind].
  rewrite np_matmul_ok by congruence. cbn [bind].
  rewrite np_matmul_ok by congruence. cbn [bind].
  unfold of_int. change (IZR ((Z.of_nat 1 - 1) ^ 2)) with 0.
  now rewrite py_div_zero.
Qed.

Lemma HSIC_no_rows (K L : ndarray) :
  shape0 K = 0%nat -> HSIC K L = Raise ZeroDivisionError.
Proof. intros K0. unfold HSIC. rewrite K0. now rewrite centering_0. Qed.

Lemma HSIC_row_mismatch (n : nat) (K L : ndarray) :
  (1 <= n)%nat ->
  shape0 K = n -> shape1 K = n -> shape1 L <> n ->
  HSIC K L = Raise ValueError.
Proof.
  intros Hn K0 K1 L1. unfold HSIC. rewrite K0.
  destruct (centering_ok n) as [H [EH [H0 H1]]]; [lia|].
  rewrite EH. cbn [bind].
  rewrite np_matmul_ok by congruence. cbn [bind].
  now rewrite np_matmul_mismatch by congruence.
Qed.

(** X15.  Under the linear kernel [CKA] raises [ZeroDivisionError] when X
    has no row, whatever Y is, and when X and Y have one row each: the
    two Gram matrices are computed and [HSIC] fails at [1./n] or at
    [1./((n-1)**2)].  The items of X and Y play no part. *)
Theorem CKA_too_few_rows (kernel : option kernel_fn) (X Y : ndarray) :
  kernel_or_default kernel = linear_kernel ->
  (shape0 X = 0%nat \/ (shape0 X = 1%nat /\ shape0 Y = 1%nat)) ->
  CKA X Y kernel = Raise ZeroDivisionError.
Proof.
  intros Ek Hrows.
  destruct (linear_kernel_self X) as [K [EK [K0 K1]]].
  destruct (linear_kernel_self Y) as [L [EL [L0 L1]]].
  unfold CKA. fold (kernel_or_default kernel). rewrite Ek.
  rewrite EK. cbn [bind]. rewrite EL. cbn [bind].
  destruct Hrows as [X0 | [X1 Y1]].
  - rewrite (HSIC_no_rows K L) by congruence. reflexivity.
  - rewrite (HSIC_small 1 K L) by (lia || congruence). reflexivity.
Qed.

Lemma CKA_too_few_rows_witness :
  CKA (of_rmat 0 1 pts01) (of_rmat 2 1 pts01) None = Raise ZeroDivisionError /\
  CKA (one_by_one 3) (one_by_one 5) (Some linear_kernel)
    = Raise ZeroDivisionError.
Proof.
  split.
  - apply (CKA_too_few_rows None (of_rmat 0 1 pts01) (of_rmat 2 1 pts01));
      [reflexivity | left; reflexivity].
  - apply (CKA_too_few_rows (Some linear_kernel) (one_by_one 3) (one_by_one 5));
      [reflexivity | right; split; reflexivity].
Defined.

(** X16.  Under the linear kernel [CKA] raises [ValueError] when X has at
    least one row and Y another number of rows: the two Gram matrices are
    computed and [HSIC] fails at [np.matmul(L, H)].  The items of X and Y
    play no part. *)
Theorem CKA_row_mismatch (kernel : option kernel_fn) (X Y : ndarray) :
  kernel_or_default kernel = linear_kernel ->
  (1 <= shape0 X)%nat -> shape0 Y <> shape0 X ->
  CKA X Y kernel = Raise ValueError.
Proof.
  intros Ek Hn Hnm.
  destruct (linear_kernel_self X) as [K [EK [K0 K1]]].
  destruct (linear_kernel_self Y) as [L [EL [L0 L1]]].
  unfold CKA. fold (kernel_or_default kernel). rewrite Ek.
  rewrite EK. cbn [bind]. rewrite EL. cbn [bind].
  rewrite (HSIC_row_mismatch (shape0 X) K L Hn K0 K1); [reflexivity|].
  congruence.
Qed.

Lemma CKA_row_mismatch_witness :
  CKA (of_rmat 2 1 pts01) (of_rmat 3 1 line012) None = Raise ValueError /\
  CKA (one_by_one 3) (of_rmat 0 1 pts01) None = Raise ValueError.
Proof.
  split.
  - apply (CKA_row_mismatch None (of_rmat 2 1 pts01) (of_rmat 3 1 line012));
      [reflexivity | simpl; lia | simpl; lia].
  - apply (CKA_row_mismatch None (one_by_one 3) (of_rmat 0 1 pts01));
      [reflexivity | simpl; lia | simpl; lia].
Defined.

(** X27.  Under the linear kernel [CKA] returns a value, a number, NaN or
    an infinity, exactly when X has at least two rows and Y as many as X;
    otherwise it raises.  The column counts and the items of X and Y play
    no part. *)
Theorem CKA_linear_returns_iff (X Y : ndarray) :
  (exists v, CKA X Y None = Ok v) <->
  (2 <= shape0 X)%nat /\ shape0 Y = shape0 X.
Proof.
  destruct (linear_kernel_self X) as [K [EK [K0 K1]]].
  destruct (linear_kernel_self Y) as [L [EL [L0 L1]]].
  unfold CKA. rewrite EK. cbn [bind]. rewrite EL. cbn [bind]. split.
  - intros [v Ev].
    destruct (Nat.eq_dec (shape0 X) 0) as [X0|X0].
    { rewrite (HSIC_no_rows K L) in Ev by congruence. discriminate. }
    destruct (Nat.eq_dec (shape0 Y) (shape0 X)) as [E|E].
    + split; [|exact E].
      destruct (Nat.eq_dec (shape0 X) 1) as [X1|X1]; [|lia].
      rewrite (HSIC_small 1 K L) in Ev by (lia || congruence). discriminate.
    + rewrite (HSIC_row_mismatch (shape0 X) K L) in Ev
        by (lia || congruence).
      discriminate.
  - intros [Hn E].
    destruct (HSIC_ok (shape0 X) K L) as [h Eh]; try congruence.
    destruct (HSIC_ok (shape0 X) K K) as [a Ea]; try congruence.
    destruct (HSIC_ok (shape0 X) L L) as [b Eb]; try congruence.
    rewrite Eh, Ea, Eb. cbn [bind]. eexists. reflexivity.
Qed.

Lemma CKA_linear_returns_iff_witness :
  exists v, CKA const2 (of_rmat 2 1 pts01) None = Ok v.
Proof.
  apply (proj2 (CKA_linear_returns_iff const2 (of_rmat 2 1 pts01))).
  split; [simpl; lia | reflexivity].
Defined.

(** X26.  Under the RBF kernel, passed to [CKA] as it is, every call of
    [CKA] raises [NameError]: the first thing [CKA] does is [rbf(X, X)],
    with no sigma, which stops at [math.sqrt]. *)
Theorem CKA_rbf_name_error (X Y : ndarray) :
  CKA X Y (Some rbf_default) = Raise NameError.
Proof. unfold CKA. now rewrite rbf_default_name_error. Qed.

(** ** Centering the columns *)

(** X23.  The centering of the columns raises nothing and keeps the shape
    of X, whatever X is: the row of the column means is stretched over
    the rows of X, and every item has the mean of its column
    subtracted. *)
Theorem center_columns_total (X : ndarray) :
  exists C, center_columns X = Ok C /\
            shape0 C = shape0 X /\ shape1 C = shape1 X /\
            forall i j, (i < shape0 X)%nat -> (j < shape1 X)%nat ->
              item C i j = fsub (item X i j) (item1 (np_mean0 X) j).
Proof.
  unfold center_columns, np_sub, broadcast.
  cbn [as_row np_mean0 shape0 shape1 len item item1].
  rewrite broadcast_dim_1_r, broadcast_dim_refl.
  eexists. split; [reflexivity|]. cbn [shape0 shape1 item].
  split; [reflexivity|]. split; [reflexivity|].
  intros i j Hi Hj. now rewrite (bidx_lt _ _ Hi), !(bidx_lt _ _ Hj).
Qed.

(** ** The sign of the bandwidth *)

Lemma fmul_fneg_fneg (x : float64) : fmul (fneg x) (fneg x) = fmul x x.
Proof. destruct x; cbn; try reflexivity. f_equal. ring. Qed.

(** X12.  [rbf] reads sigma through [sigma * sigma] only: a negative bandwidth
    is accepted and gives what its absolute value gives, for a Python
    number and for a numpy scalar. *)
Theorem rbf_sigma_sign (X Y : ndarray) (s : scalar) :
  rbf X Y (Some (scalar_neg s)) = rbf X Y (Some s).
Proof.
  unfold rbf. destruct (rbf_dist X Y) as [KX|e]; [|reflexivity].
  cbn [bind].
  now destruct s as [x|x]; cbn [scalar_neg scalar_square];
    rewrite fmul_fneg_fneg.
Qed.

(** ** The linear kernel with its arguments exchanged *)

(** X8.  [linear_kernel(Y, X)] is the transpose of [linear_kernel(X, Y)], and
    fails when it does. *)
Theorem linear_kernel_exchange (X Y : ndarray) :
  match linear_kernel X Y, linear_kernel Y X with
  | Ok K, Ok K' =>
      shape0 K' = shape1 K /\ shape1 K' = shape0 K /\
      forall i j, item K' j i = item K i j
  | Raise e, Raise e' => e = e'
  | _, _ => False
  end.
Proof.
  unfold linear_kernel, np_matmul. cbn [T shape0 shape1 item].
  rewrite (Nat.eqb_sym (shape1 Y) (shape1 X)).
  destruct (Nat.eqb_spec (shape1 X) (shape1 Y)) as [E|]; [|reflexivity].
  cbn. repeat split. intros i j. rewrite E.
  apply fsum_ext. intros k _. apply fmul_comm.
Qed.
